(** * pybit/_helpers.py: clock synchronisation, endpoint routing, helpers

    A shallow embedding of the helper functions of [pybit/_helpers.py] and
    the properties stated about them.

    - [ClockSync]: [get_server_time_delay] (decorated with
      [lru_cache(maxsize=1)]), [generate_req_timestamp] and
      [generate_timestamp], as computations over an explicit world
      (cache slot, clock, network log, output).
    - [EndpointRouter]: [identify_ws_method] and the regular expression
      it compiles.
    - [Support]: [find_index] and [are_connections_connected]. *)

From Stdlib Require Import ZArith String Ascii List Bool Lia.
From stdpp Require Import base tactics option list strings gmap pretty.

Local Open Scope string_scope.
Local Open Scope Z_scope.

(** ** Python exceptions

    The exception values that the modelled functions raise or let
    through.  [SessionError] stands for whatever the session's network
    stack raises inside [get_server_time]: an instance of some subclass of
    [Exception] (a connection error, a timeout, a decoding error), given
    by its class name and its message.  [KeyboardInterrupt] and
    [SystemExit] derive from [BaseException] and not from [Exception]:
    they can come up inside any call, [get_server_time] included. *)
Inductive exn : Type :=
| Exception (msg : string)
| SessionError (cls msg : string)
| AttributeError (msg : string)
| KeyError (key : string)
| StopIteration
| KeyboardInterrupt
| SystemExit (code : string).

(** [str(e)] as used by the f-strings of the log messages. *)
Definition str_exn (e : exn) : string :=
  match e with
  | Exception msg => msg
  | SessionError _ msg => msg
  | AttributeError msg => msg
  | KeyError key => "'" +:+ key +:+ "'"
  | StopIteration => ""
  | KeyboardInterrupt => ""
  | SystemExit code => code
  end.

(** [isinstance(e, Exception)]: what a clause [except Exception] catches. *)
Definition is_Exception (e : exn) : bool :=
  match e with
  | KeyboardInterrupt | SystemExit _ => false
  | _ => true
  end.

(** A call either raises or returns. *)
Inductive result (A : Type) : Type :=
| Raise (e : exn)
| Return (a : A).
Arguments Raise {A} e.
Arguments Return {A} a.

(** * ClockSync *)
Module ClockSync.

(** A session object.  Sessions are plain objects: hashable and compared
    by identity (the key [lru_cache] uses), and truthy, since they define
    neither [__bool__] nor [__len__].  A session is modelled by its
    identity. *)
Definition Session : Type := nat.

(** The dictionary returned by [session.get_server_time()]:
    [response['retCode']], [response['retMsg']] and
    [int(response['result']['timeNano'])].  Answers have the three
    fields, as the API gives them; [timeNano] is the integer that the
    decimal string of the answer denotes. *)
Record Response : Type := mkResponse {
  retCode : Z;
  retMsg : string;
  timeNano : Z
}.

(** What one invocation of [session.get_server_time()] does. *)
Inductive fetch_outcome : Type :=
| Returned (response : Response)
| Raised (e : exn).

(** What the functions write: [logging.info], [logging.error], [print]. *)
Inductive output_event : Type :=
| LogInfo (msg : string)
| LogError (msg : string)
| Print (msg : string).

(** The state the functions read and write.
    - [delay_cache]: the one slot of the [lru_cache(maxsize=1)] wrapped
      around [get_server_time_delay], holding the last key and its result;
    - [ticks]: how many times [time.time()] has been read;
    - [fetched]: the sessions whose [get_server_time] was invoked, latest
      first;
    - [output]: what was logged and printed, latest first. *)
Record World : Type := mkWorld {
  delay_cache : option (Session * Z);
  ticks : nat;
  fetched : list Session;
  output : list output_event
}.

Definition initial_world : World :=
  {| delay_cache := None; ticks := 0; fetched := []; output := [] |}.

(** How many times [s.get_server_time()] was invoked. *)
Definition fetch_count (s : Session) (w : World) : nat :=
  count_occ Nat.eq_dec (fetched w) s.

(** The slot holds no delay for [s]. *)
Definition not_cached (s : Session) (w : World) : Prop :=
  forall d, delay_cache w <> Some (s, d).

(** Computations that read and write the world and may raise. *)
Definition M (A : Type) : Type := World -> result A * World.

Definition ret {A} (a : A) : M A := fun w => (Return a, w).

Definition raise {A} (e : exn) : M A := fun w => (Raise e, w).

Definition bind {A B} (c : M A) (k : A -> M B) : M B := fun w =>
  match c w with
  | (Return a, w') => k a w'
  | (Raise e, w') => (Raise e, w')
  end.

(** [try: body / except Exception as e: handler e].  The handler runs
    for an instance of [Exception]; any other exception is not caught and
    goes on to the caller. *)
Definition try_except {A} (body : M A) (handler : exn -> M A) : M A := fun w =>
  match body w with
  | (Return a, w') => (Return a, w')
  | (Raise e, w') => if is_Exception e then handler e w' else (Raise e, w')
  end.

Notation "'let!' x ':=' c 'in' k" := (bind c (fun x => k))
  (at level 10, x name, c at level 100, k at level 200, only parsing).

Definition emit (ev : output_event) : M unit := fun w =>
  (Return tt,
   {| delay_cache := delay_cache w; ticks := ticks w;
      fetched := fetched w; output := ev :: output w |}).

Definition logging_info (msg : string) : M unit := emit (LogInfo msg).
Definition logging_error (msg : string) : M unit := emit (LogError msg).
Definition print (msg : string) : M unit := emit (Print msg).

Section Environment.

(** The environment of a run.  [time.time()] returns a float; the code
    only ever uses it through [int(t * 1e9)] and [int(t * 1000)] (which is
    also [int(t * 10**3)]), so floats stay abstract and the two
    conversions are given. *)
Context {float : Type}.
Variable int_mul_1e9 : float -> Z.
Variable int_mul_1000 : float -> Z.

(** [time_at n] is what the [n]-th reading of [time.time()] returns;
    [server s k] is what the [k]-th invocation of [s.get_server_time()]
    does (both counted from 0). *)
Variable time_at : nat -> float.
Variable server : Session -> nat -> fetch_outcome.

(** [time.time()] *)
Definition time_time : M float := fun w =>
  (Return (time_at (ticks w)),
   {| delay_cache := delay_cache w; ticks := S (ticks w);
      fetched := fetched w; output := output w |}).

(** [session.get_server_time()] *)
Definition get_server_time (session : Session) : M Response := fun w =>
  let w' := {| delay_cache := delay_cache w; ticks := ticks w;
               fetched := session :: fetched w; output := output w |} in
  match server session (fetch_count session w) with
  | Returned response => (Return response, w')
  | Raised e => (Raise e, w')
  end.

(** The body of [get_server_time_delay], without its decorator. *)
Definition get_server_time_delay_body (session : Session) : M Z :=
  try_except
    (let! response := get_server_time session in
     if retCode response =? 0 then
       let server_time_nano := timeNano response in
       let! t := time_time in
       let system_time_nano := int_mul_1e9 t in
       let delay := server_time_nano - system_time_nano in
       let! _ := logging_info
              ("Calculated delay: " +:+ pretty delay +:+ " nanoseconds") in
       ret delay
     else
       let error_message :=
         "Error retrieving Bybit server time: " +:+ retMsg response in
       let! _ := logging_error error_message in
       raise (Exception error_message))
    (fun e =>
       let error_message :=
         "Error retrieving Bybit server time: " +:+ str_exn e in
       let! _ := logging_error error_message in
       raise e).

(** [functools.lru_cache(maxsize=1)] around a one-argument function whose
    cache is the [delay_cache] slot: a call whose key is the one in the
    slot returns the stored result without running the function; any
    other call runs it and, when it returns, replaces the slot by the new
    key and result; when it raises nothing is stored and the exception
    goes on to the caller. *)
Definition lru_cache_maxsize_1 (f : Session -> M Z) (key : Session) : M Z :=
  fun w =>
    let miss :=
      match f key w with
      | (Return r, w') =>
          (Return r,
           {| delay_cache := Some (key, r); ticks := ticks w';
              fetched := fetched w'; output := output w' |})
      | (Raise e, w') => (Raise e, w')
      end in
    match delay_cache w with
    | Some (cached_key, r) =>
        if Nat.eq_dec cached_key key then (Return r, w) else miss
    | None => miss
    end.

Definition get_server_time_delay : Session -> M Z :=
  lru_cache_maxsize_1 get_server_time_delay_body.

(** The local function [get_current_utc_milliseconds] of
    [generate_req_timestamp]. *)
Definition get_current_utc_milliseconds : M Z :=
  let! epoch_time := time_time in
  ret (int_mul_1000 epoch_time).

(** [generate_req_timestamp(session)]; [None] is Python's [None].  The
    [if session:] block either returns (a value) or falls through. *)
Definition generate_req_timestamp (session : option Session) : M Z :=
  try_except
    (let! returned :=
       match session with
       | Some s =>
           try_except
             (let! delay_nano := get_server_time_delay s in
              let! t := time_time in
              let current_system_time_nano := int_mul_1e9 t in
              let server_time_nano := current_system_time_nano + delay_nano in
              ret (Some (server_time_nano / 1000000)))
             (fun _ =>
                let! _ := logging_error
                       "Failed to get server time delay, falling back to UTC time." in
                ret None)
       | None => ret None
       end in
     match returned with
     | Some timestamp => ret timestamp
     | None =>
         let! _ := print "No session available, using UTC time as req_timestamp" in
         get_current_utc_milliseconds
     end)
    (fun e =>
       let! utc_milliseconds := get_current_utc_milliseconds in
       let! _ := logging_error
              ("Error generating req_timestamp: " +:+ str_exn e +:+
               ", using UTC time: " +:+ pretty utc_milliseconds) in
       let! _ := print ("Error generating req_timestamp: " +:+ str_exn e) in
       ret utc_milliseconds).

(** [generate_timestamp()] *)
Definition generate_timestamp : M Z :=
  let! t := time_time in
  ret (int_mul_1000 t).

(** ** Sessions and worlds of a run *)

(** A session whose every [get_server_time()] answers with code 0. *)
Definition answers_code_0 (s : Session) : Prop :=
  forall k, exists response,
    server s k = Returned response /\ retCode response = 0.

(** A session whose every [get_server_time()] raises or answers with a
    non-zero code. *)
Definition fetch_fails (s : Session) : Prop :=
  forall k,
    match server s k with
    | Returned response => retCode response <> 0
    | Raised _ => True
    end.

(** The calls a client makes. *)
Inductive call : Type :=
| CallGetServerTimeDelay (session : Session)
| CallGenerateReqTimestamp (session : option Session)
| CallGenerateTimestamp.

(** The world after a call. *)
Definition after_call (c : call) (w : World) : World :=
  match c with
  | CallGetServerTimeDelay session => snd (get_server_time_delay session w)
  | CallGenerateReqTimestamp session => snd (generate_req_timestamp session w)
  | CallGenerateTimestamp => snd (generate_timestamp w)
  end.

(** The worlds a process can be in: the initial one, and those that
    calls lead to. *)
Inductive reachable : World -> Prop :=
| reachable_initial : reachable initial_world
| reachable_call (c : call) (w : World) :
    reachable w -> reachable (after_call c w).

(** What the cache slot holds was measured: its session answered one of
    the fetches made so far with code 0. *)
Definition cache_measured (w : World) : Prop :=
  forall s d, delay_cache w = Some (s, d) ->
    exists k response,
      (k < fetch_count s w)%nat /\
      server s k = Returned response /\ retCode response = 0.

End Environment.

(** ** A concrete run

    Floats that are whole seconds, a clock that advances by one second
    per reading from 1_700_000_000 on, and the sessions: 0 and 1 answer
    with code 0 (0 with the server time 1_700_000_000_500_000_000), 2
    answers with an error code, 3 raises a connection error, and the
    others are interrupted from the keyboard while they fetch. *)
Definition example_int_mul_1e9 (t : Z) : Z := t * 1000000000.
Definition example_int_mul_1000 (t : Z) : Z := t * 1000.
Definition example_time_at (n : nat) : Z := 1700000000 + Z.of_nat n.
Definition example_server (s : Session) (k : nat) : fetch_outcome :=
  match s with
  | 0%nat => Returned (mkResponse 0 "OK" 1700000000500000000)
  | 1%nat => Returned (mkResponse 0 "OK" 1700000000250000000)
  | 2%nat => Returned (mkResponse 10002 "Invalid request" 0)
  | 3%nat => Raised (SessionError "ConnectionError" "Connection refused")
  | _ => Raised KeyboardInterrupt
  end.

(** Another run: the two readings of the clock fall in the same second,
    and the server answers with code 0 and a time just before the
    epoch. *)
Definition example_still_time_at (n : nat) : Z := 1700000000.
Definition example_early_server (s : Session) (k : nat) : fetch_outcome :=
  Returned (mkResponse 0 "OK" (-1)).

End ClockSync.

(** * EndpointRouter *)
Module EndpointRouter.

(** ** The regular expressions the module compiles

    Python strings are sequences of code points; the URLs here are taken
    over the code points 0..255, one [ascii] each.  The fragment of [re]
    that the pattern of [identify_ws_method] uses: literals, greedy [+]
    and [*] over a character class, a greedy optional item and capturing
    groups, matched by backtracking as [re] does. *)
Inductive regex : Type :=
| Lit (s : string)
| Plus (cls : ascii -> bool)
| Star (cls : ascii -> bool)
| Opt (r : regex)
| Group (n : nat) (r : regex)
| Seq (r1 r2 : regex).

(** The text of each group that took part in the match. *)
Abbreviation captures := (gmap nat string).

(** [strip_prefix p s]: what follows [p] in [s], when [s] starts with [p]. *)
Fixpoint strip_prefix (p s : string) : option string :=
  match p, s with
  | EmptyString, _ => Some s
  | String a p', String b s' =>
      if Ascii.eqb a b then strip_prefix p' s' else None
  | String _ _, EmptyString => None
  end.

(** [consumed s s']: the text between the positions [s] and [s'], two
    suffixes of the subject, [s'] the later one. *)
Definition consumed (s s' : string) : string :=
  substring 0 (String.length s - String.length s') s.

(** Greedy repetition of a character class: take one more character when
    possible and go on; when what follows fails, give the character
    back. *)
Fixpoint exec_star (cls : ascii -> bool) (s : string) (caps : captures)
    (k : string -> captures -> option captures) : option captures :=
  match s with
  | String c rest =>
      if cls c then
        match exec_star cls rest caps k with
        | Some m => Some m
        | None => k s caps
        end
      else k s caps
  | EmptyString => k s caps
  end.

(** [exec r s caps k]: match [r] at the front of [s], then what remains
    of the pattern ([k]) on what remains of the subject; the first
    alternative that lets [k] succeed wins. *)
Fixpoint exec (r : regex) (s : string) (caps : captures)
    (k : string -> captures -> option captures) : option captures :=
  match r with
  | Lit l =>
      match strip_prefix l s with
      | Some rest => k rest caps
      | None => None
      end
  | Plus cls =>
      match s with
      | String c rest => if cls c then exec_star cls rest caps k else None
      | EmptyString => None
      end
  | Star cls => exec_star cls s caps k
  | Opt r' =>
      match exec r' s caps k with
      | Some m => Some m
      | None => k s caps
      end
  | Group n r' =>
      exec r' s caps (fun s' caps' => k s' (<[n := consumed s s']> caps'))
  | Seq r1 r2 =>
      exec r1 s caps (fun s' caps' => exec r2 s' caps' k)
  end.

(** [pattern.match(s)]: anchored at the start of [s], not at its end;
    [None] is Python's [None] (no match object). *)
Definition re_match (pattern : regex) (s : string) : option captures :=
  exec pattern s ∅ (fun _ caps => Some caps).

(** [\s] on the code points 0..255: tab, line feed, vertical tab, form
    feed, carriage return, the separators 28..31, space, NEL (133) and
    the no-break space (160). *)
Definition is_whitespace (c : ascii) : bool :=
  let n := nat_of_ascii c in
  ((9 <=? n) && (n <=? 13) || (28 <=? n) && (n <=? 32) ||
   (n =? 133) || (n =? 160))%nat.

(** The class [[^/\s]]. *)
Definition not_slash_or_space (c : ascii) : bool :=
  negb (Ascii.eqb c "/") && negb (is_whitespace c).

(** The class [.] (no DOTALL flag): anything but a line feed. *)
Definition dot (c : ascii) : bool := negb (Ascii.eqb c "010").

(** The pattern that [identify_ws_method] compiles into [path], item by
    item: the optional group [(wss://)?], the group [([^/\s]+)], and a
    third group that holds [.] under a star. *)
Definition path : regex :=
  Seq (Opt (Group 1 (Lit "wss://")))
      (Seq (Group 2 (Plus not_slash_or_space))
           (Group 3 (Star dot))).

(** [path.match(url).group(3)]: raises [AttributeError] when there is no
    match object; the group's text otherwise ([None] for a group that
    took no part in the match). *)
Definition path_group_3 (url : string) : result (option string) :=
  match re_match path url with
  | None => Raise (AttributeError "'NoneType' object has no attribute 'group'")
  | Some m => Return (m !! 3%nat)
  end.

(** ** What the pattern computes, read off directly

    The longest prefix of [s] whose characters are all in [cls], and what
    follows it. *)
Fixpoint leading (cls : ascii -> bool) (s : string) : string :=
  match s with
  | String c rest => if cls c then String c (leading cls rest) else EmptyString
  | EmptyString => EmptyString
  end.

Fixpoint after_leading (cls : ascii -> bool) (s : string) : string :=
  match s with
  | String c rest => if cls c then after_leading cls rest else s
  | EmptyString => EmptyString
  end.

(** A string at whose start the second group finds nothing: it is empty,
    or starts with a slash or with whitespace. *)
Definition no_host (s : string) : bool :=
  match s with
  | String c _ => negb (not_slash_or_space c)
  | EmptyString => true
  end.

(** Host and path of [s] with no scheme before: the host is the longest
    run of characters other than slash and whitespace, the path is what
    follows it on the same line. *)
Definition host_and_path (s : string) : option (string * string) :=
  if no_host s then None
  else Some (leading not_slash_or_space s,
             leading dot (after_leading not_slash_or_space s)).

(** The third group: the path after [wss://] and a host when the URL
    starts that way and a host follows, the path after the host that
    starts the URL otherwise. *)
Definition path_component (url : string) : option string :=
  match strip_prefix "wss://" url with
  | Some rest =>
      match host_and_path rest with
      | Some (_, p) => Some p
      | None => snd <$> host_and_path url
      end
  | None => snd <$> host_and_path url
  end.

(** ** URLs by their parts *)

Fixpoint all_chars (cls : ascii -> bool) (s : string) : bool :=
  match s with
  | String c rest => cls c && all_chars cls rest
  | EmptyString => true
  end.

(** A host: not empty, no slash, no whitespace. *)
Definition is_host (host : string) : bool :=
  negb (no_host host) && all_chars not_slash_or_space host.

(** The URL with the given host and rest, with or without [wss://]. *)
Definition url_of (wss : bool) (host rest : string) : string :=
  (if wss then "wss://" else "") +:+ host +:+ rest.

(** The path component in the words of the specification: the suffix of
    the URL after the scheme, whichever it is, and the host.  The scheme
    ends with the first [://]; the host ends before the next slash. *)
Fixpoint after_scheme (url : string) : option string :=
  match strip_prefix "://" url with
  | Some rest => Some rest
  | None =>
      match url with
      | String _ rest => after_scheme rest
      | EmptyString => None
      end
  end.

Definition spec_path_component (url : string) : string :=
  after_leading (fun c => negb (Ascii.eqb c "/"))
    (default url (after_scheme url)).

(** A [dict] from URLs to handlers, as [items()] lists it: in insertion
    order, no key twice. *)
Abbreviation dict_items H := (list (string * H)).

Definition dict_keys {H} (d : dict_items H) : list string := d.*1.

(** The loop of [identify_ws_method] over [wss_dictionary.items()];
    falling off its end, the function returns [None]. *)
Fixpoint identify_ws_method_loop {H} (input_wss_url_path : option string)
    (items : dict_items H) : result (option H) :=
  match items with
  | [] => Return None
  | (wss_url, function_call) :: rest =>
      match path_group_3 wss_url with
      | Raise e => Raise e
      | Return wss_url_path =>
          if decide (input_wss_url_path = wss_url_path)
          then Return (Some function_call)
          else identify_ws_method_loop input_wss_url_path rest
      end
  end.

(** [identify_ws_method(input_wss_url, wss_dictionary)] *)
Definition identify_ws_method {H} (input_wss_url : string)
    (wss_dictionary : dict_items H) : result (option H) :=
  match path_group_3 input_wss_url with
  | Raise e => Raise e
  | Return input_wss_url_path =>
      identify_ws_method_loop input_wss_url_path wss_dictionary
  end.

(** An item whose key the pattern matches, with another path component
    than [p]. *)
Definition other_path {H} (p : option string) (item : string * H) : Prop :=
  exists q, path_group_3 item.1 = Return q /\ q <> p.

(** What the attribute access on [None] raises. *)
Definition no_match_object : exn :=
  AttributeError "'NoneType' object has no attribute 'group'".

End EndpointRouter.

(** * Supporting helpers *)
Module Support.

Section FindIndex.

(** Records are dictionaries from string keys to values; [==] on the
    values is decidable equality. *)
Context {V : Type} `{EqDecision V}.

(** [j[key]] on a dictionary. *)
Definition getitem (j : gmap string V) (key : string) : result V :=
  match j !! key with
  | Some v => Return v
  | None => Raise (KeyError key)
  end.

(** The generator expression of [find_index] run by [next]: the records
    from position [i] on are [source]; the first [i] whose record passes
    the test is the value of [next], and an exhausted generator makes
    [next] raise [StopIteration].  The test reads [j[key]], then
    [target[key]]. *)
Fixpoint next_index (i : nat) (source : list (gmap string V))
    (target : gmap string V) (key : string) : result nat :=
  match source with
  | [] => Raise StopIteration
  | j :: rest =>
      match getitem j key with
      | Raise e => Raise e
      | Return a =>
          match getitem target key with
          | Raise e => Raise e
          | Return b =>
              if decide (a = b) then Return i
              else next_index (S i) rest target key
          end
      end
  end.

(** [find_index(source, target, key)] *)
Definition find_index (source : list (gmap string V))
    (target : gmap string V) (key : string) : result nat :=
  next_index 0 source target key.

End FindIndex.

Section Connections.

(** A connection object and what its [is_connected()] answers. *)
Context {Connection : Type}.
Variable is_connected : Connection -> bool.

(** [are_connections_connected(active_connections)]: the value returned,
    and the connections whose [is_connected()] was invoked, in order. *)
Fixpoint are_connections_connected (active_connections : list Connection)
    : bool * list Connection :=
  match active_connections with
  | [] => (true, [])
  | connection :: rest =>
      if negb (is_connected connection) then (false, [connection])
      else
        let (answer, invoked) := are_connections_connected rest in
        (answer, connection :: invoked)
  end.

End Connections.

End Support.

(** * Runs of ClockSync calls *)
Module ClockSyncRuns.
Import ClockSync.

Section Environment.

Context {float : Type}.
Variable int_mul_1e9 : float -> Z.
Variable int_mul_1000 : float -> Z.
Variable time_at : nat -> float.
Variable server : Session -> nat -> fetch_outcome.

(** The world after a sequence of calls, first call first. *)
Fixpoint after_calls (calls : list call) (w : World) : World :=
  match calls with
  | [] => w
  | c :: rest =>
      after_calls rest
        (after_call int_mul_1e9 int_mul_1000 time_at server c w)
  end.

(** A call that passes no other session than [s]. *)
Definition uses_only (s : Session) (c : call) : Prop :=
  match c with
  | CallGetServerTimeDelay s' => s' = s
  | CallGenerateReqTimestamp (Some s') => s' = s
  | CallGenerateReqTimestamp None => True
  | CallGenerateTimestamp => True
  end.

(** Where the delay in the slot comes from: one of the fetches made so
    far for its session answered with code 0, and the delay is the server
    time of that answer minus one of the local times read so far. *)
Definition slot_origin (w : World) : Prop :=
  forall s d, delay_cache w = Some (s, d) ->
    exists k response t,
      (k < fetch_count s w)%nat /\ (t < ticks w)%nat /\
      server s k = Returned response /\ retCode response = 0 /\
      d = timeNano response - int_mul_1e9 (time_at t).

(** The fetch that the next call for [s] would make fails. *)
Definition next_fetch_fails (s : Session) (w : World) : Prop :=
  match server s (fetch_count s w) with
  | Returned response => retCode response <> 0
  | Raised _ => True
  end.

End Environment.

End ClockSyncRuns.

(** * Argument dictionaries *)
Module Kwargs.

(** The values that the argument dictionaries hold: data, which
    [copy.deepcopy] copies as it is. *)
Inductive value : Type :=
| VNone
| VBool (b : bool)
| VInt (n : Z)
| VStr (s : string).

(** Dictionaries are objects: a reference names one, the heap gives the
    contents of each.  Two references to one dictionary see the changes
    made through either.  A reference the heap does not know reads as the
    empty dictionary; references in use are in the domain of the heap. *)
Definition ref : Type := nat.
Abbreviation heap := (gmap nat (gmap string value)).

(** Computations on the heap that may raise. *)
Definition HeapM (A : Type) : Type := heap -> result A * heap.

(** [d.pop(key)]: [KeyError] when the key is missing. *)
Definition dict_pop (d : ref) (key : string) : HeapM value := fun h =>
  match (h !!! d) !! key with
  | Some v => (Return v, <[d := delete key (h !!! d)]> h)
  | None => (Raise (KeyError key), h)
  end.

(** [d.pop(key, default)]: the default when the key is missing. *)
Definition dict_pop_default (d : ref) (key : string) (default : value)
    : HeapM value := fun h =>
  match (h !!! d) !! key with
  | Some v => (Return v, <[d := delete key (h !!! d)]> h)
  | None => (Return default, h)
  end.

(** [copy.deepcopy(d)]: a new dictionary with the contents of [d]. *)
Definition deepcopy (d : ref) : HeapM ref := fun h =>
  let new := fresh (dom h) in
  (Return new, <[new := h !!! d]> h).

(** [make_private_args(args)] *)
Definition make_private_args (args : ref) : HeapM ref := fun h =>
  match dict_pop args "self" h with
  | (Raise e, h') => (Raise e, h')
  | (Return _, h') => (Return args, h')
  end.

(** [make_public_kwargs(private_kwargs)] *)
Definition make_public_kwargs (private_kwargs : ref) : HeapM ref := fun h =>
  match deepcopy private_kwargs h with
  | (Raise e, h1) => (Raise e, h1)
  | (Return public_kwargs, h1) =>
      match dict_pop_default public_kwargs "api_key" (VStr "") h1 with
      | (Raise e, h2) => (Raise e, h2)
      | (Return _, h2) =>
          match dict_pop_default public_kwargs "api_secret" (VStr "") h2 with
          | (Raise e, h3) => (Raise e, h3)
          | (Return _, h3) => (Return public_kwargs, h3)
          end
      end
  end.

End Kwargs.

(** * Symbol classification *)
Module Symbols.
Import EndpointRouter.

(** ** The patterns that the predicates search for

    The predicates only test whether [re.search] finds a match, so the
    matcher answers with a boolean and groups hold nothing.  The fragment
    of [re] used: literals, one character of a class, a greedy star over
    a class, a fixed number of repetitions, alternation, grouping and the
    end anchor. *)
Inductive pattern : Type :=
| Chars (s : string)
| One (cls : ascii -> bool)
| Many (cls : ascii -> bool)
| Times (n : nat) (p : pattern)
| AtEnd
| Or (p1 p2 : pattern)
| Grp (p : pattern)
| Then (p1 p2 : pattern).

(** [$] without the MULTILINE flag: at the end of the string, and just
    before a line feed that ends the string. *)
Definition at_end (s : string) : bool :=
  match s with
  | EmptyString => true
  | String c EmptyString => Ascii.eqb c "010"
  | String _ (String _ _) => false
  end.

(** Greedy star over a class, by backtracking: the longest run first,
    then shorter ones, until what follows accepts. *)
Fixpoint accepts_many (cls : ascii -> bool) (s : string)
    (k : string -> bool) : bool :=
  match s with
  | String c rest => if cls c then accepts_many cls rest k || k s else k s
  | EmptyString => k s
  end.

(** [accepts p s k]: [p] matches at the front of [s] in a way that lets
    the rest of the pattern, [k], accept what remains. *)
Fixpoint accepts (p : pattern) (s : string) (k : string -> bool) : bool :=
  match p with
  | Chars l =>
      match strip_prefix l s with
      | Some rest => k rest
      | None => false
      end
  | One cls =>
      match s with
      | String c rest => cls c && k rest
      | EmptyString => false
      end
  | Many cls => accepts_many cls s k
  | Times n p' =>
      (fix times (n : nat) (s : string) : bool :=
         match n with
         | O => k s
         | S n' => accepts p' s (fun s' => times n' s')
         end) n s
  | AtEnd => at_end s && k s
  | Or p1 p2 => accepts p1 s k || accepts p2 s k
  | Grp p' => accepts p' s k
  | Then p1 p2 => accepts p1 s (fun s' => accepts p2 s' k)
  end.

(** [re.search(p, s)] finds a match: [p] matches at some position of
    [s], the end included. *)
Fixpoint search (p : pattern) (s : string) : bool :=
  accepts p s (fun _ => true) ||
  match s with
  | String _ rest => search p rest
  | EmptyString => false
  end.

(** [s.endswith(suffix)] *)
Fixpoint endswith (s suffix : string) : bool :=
  String.eqb s suffix ||
  match s with
  | String _ rest => endswith rest suffix
  | EmptyString => false
  end.

(** The classes [[HMUZ]], [\d] (on the code points 0..255: the digits 0
    to 9), [[A-Z]] and [[PC]]. *)
Definition hmuz (c : ascii) : bool :=
  Ascii.eqb c "H" || Ascii.eqb c "M" || Ascii.eqb c "U" || Ascii.eqb c "Z".

Definition digit (c : ascii) : bool :=
  let n := nat_of_ascii c in ((48 <=? n) && (n <=? 57))%nat.

Definition upper (c : ascii) : bool :=
  let n := nat_of_ascii c in ((65 <=? n) && (n <=? 90))%nat.

Definition p_or_c (c : ascii) : bool := Ascii.eqb c "P" || Ascii.eqb c "C".

(** The pattern of [is_inverse_contract]: the group [(USD)], then a group
    with two alternatives, one of [HMUZ] and two digits, or the end. *)
Definition inverse_pattern : pattern :=
  Then (Grp (Chars "USD"))
       (Grp (Or (Then (One hmuz) (Then (One digit) (One digit))) AtEnd)).

(** The pattern of [is_usdc_option]: three capital letters, a dash,
    anything on the line, a dash, [P] or [C], the end. *)
Definition option_pattern : pattern :=
  Then (Times 3 (One upper))
    (Then (Chars "-")
       (Then (Many dot) (Then (Chars "-") (Then (One p_or_c) AtEnd)))).

(** What may follow [USD] in an inverse contract: the end of the symbol,
    or a delivery code, one of [HMUZ] and two digits. *)
Definition delivery_or_end (post : string) : Prop :=
  at_end post = true \/
  exists m d1 d2 rest,
    post = String m (String d1 (String d2 rest)) /\
    hmuz m = true /\ digit d1 = true /\ digit d2 = true.

(** The shape of an option symbol from where the pattern starts: three
    capital letters, a dash, a middle with no line feed, a dash, [P] or
    [C], and the end. *)
Definition option_shape (s : string) : Prop :=
  exists a b c mid pc tail,
    s = String a (String b (String c
          ("-" +:+ mid +:+ "-" +:+ String pc tail))) /\
    upper a = true /\ upper b = true /\ upper c = true /\
    all_chars dot mid = true /\ p_or_c pc = true /\ at_end tail = true.

(** The predicates return [True] or fall off their end, which returns
    [None]. *)
Definition is_inverse_contract (symbol : string) : option bool :=
  if search inverse_pattern symbol then Some true else None.

Definition is_usdt_perpetual (symbol : string) : option bool :=
  if endswith symbol "USDT" then Some true else None.

Definition is_usdc_perpetual (symbol : string) : option bool :=
  if endswith symbol "USDC" then Some true else None.

Definition is_usdc_option (symbol : string) : option bool :=
  if search option_pattern symbol then Some true else None.

End Symbols.

(** * Properties of EndpointRouter *)
Module EndpointRouterProofs.
Import EndpointRouter.

(** ** The matcher against its direct reading *)

Lemma length_after_leading cls s :
  (String.length (after_leading cls s) <= String.length s)%nat.
Proof.
  induction s as [|c s IH]; simpl; [lia|].
  destruct (cls c); simpl; lia.
Qed.

Lemma consumed_after_leading cls s :
  consumed s (after_leading cls s) = leading cls s.
Proof.
  unfold consumed. induction s as [|c s IH]; simpl; [reflexivity|].
  destruct (cls c) eqn:Hc; simpl.
  - pose proof (length_after_leading cls s) as Hl.
    replace (S (String.length s) - String.length (after_leading cls s))%nat
      with (S (String.length s - String.length (after_leading cls s)))
      by lia.
    simpl. rewrite IH. reflexivity.
  - rewrite Nat.sub_diag. reflexivity.
Qed.

(** A greedy star takes the whole run when what follows accepts that. *)
Lemma exec_star_greedy cls s caps k m :
  k (after_leading cls s) caps = Some m ->
  exec_star cls s caps k = Some m.
Proof.
  induction s as [|c s IH]; simpl; [auto|].
  destruct (cls c); [|auto].
  intros Hk. rewrite (IH Hk). reflexivity.
Qed.

(** The second and third groups at the front of [s]. *)
Lemma exec_host_path s caps :
  exec (Seq (Group 2 (Plus not_slash_or_space)) (Group 3 (Star dot)))
       s caps (fun _ m => Some m)
  = match host_and_path s with
    | Some (host, p) => Some (<[3%nat := p]> (<[2%nat := host]> caps))
    | None => None
    end.
Proof.
  unfold host_and_path. destruct s as [|c s]; [reflexivity|].
  cbn [no_host exec]. destruct (not_slash_or_space c) eqn:Hc;
    [|reflexivity].
  cbn [negb]. apply exec_star_greedy, exec_star_greedy.
  rewrite consumed_after_leading.
  replace (consumed (String c s) (after_leading not_slash_or_space s))
    with (leading not_slash_or_space (String c s)).
  - simpl. rewrite Hc. reflexivity.
  - rewrite <- (consumed_after_leading not_slash_or_space (String c s)).
    simpl. rewrite Hc. reflexivity.
Qed.

Lemma strip_prefix_no_host s : no_host s = true -> strip_prefix "wss://" s = None.
Proof.
  destruct s as [|c s]; [reflexivity|].
  cbn [no_host]. change (strip_prefix "wss://" (String c s))
    with (if Ascii.eqb "w" c then strip_prefix "ss://" s else None).
  intros Hc. destruct (Ascii.eqb "w" c) eqn:E; [|reflexivity].
  apply Ascii.eqb_eq in E. subst c. discriminate Hc.
Qed.

(** [path.match(url)] finds no match exactly on the strings with no host
    at their start. *)
Lemma re_match_path_None url :
  re_match path url = None <-> no_host url = true.
Proof.
  unfold re_match, path. cbn [exec].
  split.
  - intros Hm. destruct (no_host url) eqn:Hn; [reflexivity|].
    assert (Hhp : exists m, exec (Seq (Group 2 (Plus not_slash_or_space))
                                      (Group 3 (Star dot)))
                              url ∅ (fun _ m => Some m) = Some m).
    { rewrite exec_host_path. unfold host_and_path. rewrite Hn. eauto. }
    destruct Hhp as [m Hhp]. cbn [exec] in Hhp.
    rewrite Hhp in Hm.
    destruct (strip_prefix "wss://" url) as [rest|]; [|discriminate Hm].
    match type of Hm with
    | match ?e with _ => _ end = None => destruct e; discriminate Hm
    end.
  - intros Hn. rewrite (strip_prefix_no_host _ Hn).
    pose proof (exec_host_path url ∅) as Hhp. cbn [exec] in Hhp.
    rewrite Hhp. unfold host_and_path. rewrite Hn. reflexivity.
Qed.

(** [path.match(url).group(3)] is the path component; with no match
    object the attribute access raises. *)
Lemma path_group_3_spec url :
  path_group_3 url =
    match path_component url with
    | Some p => Return (Some p)
    | None =>
        Raise (AttributeError "'NoneType' object has no attribute 'group'")
    end.
Proof.
  unfold path_group_3, path_component, re_match, path. cbn [exec].
  pose proof (exec_host_path url ∅) as Hu. cbn [exec] in Hu.
  destruct (strip_prefix "wss://" url) as [rest|].
  - pose proof (exec_host_path rest (<[1%nat := consumed url rest]> ∅)) as Hr.
    cbn [exec] in Hr. rewrite Hr.
    destruct (host_and_path rest) as [[h p]|].
    + rewrite lookup_insert_eq. reflexivity.
    + rewrite Hu. destruct (host_and_path url) as [[h p]|]; simpl.
      * rewrite lookup_insert_eq. reflexivity.
      * reflexivity.
  - rewrite Hu. destruct (host_and_path url) as [[h p]|]; simpl.
    + rewrite lookup_insert_eq. reflexivity.
    + reflexivity.
Qed.

(** ** The path component of a URL given by its parts *)

Lemma leading_app_host cls host rest :
  all_chars cls host = true ->
  (forall c r, rest = String c r -> cls c = false) ->
  leading cls (host +:+ rest) = host /\
  after_leading cls (host +:+ rest) = rest.
Proof.
  intros Hh Hr. induction host as [|c host IH]; simpl in *.
  - destruct rest as [|c r]; [auto|]. simpl.
    rewrite (Hr c r eq_refl). auto.
  - apply andb_true_iff in Hh as [Hc Hh]. rewrite Hc.
    destruct (IH Hh) as [-> ->]. auto.
Qed.

Lemma host_and_path_parts host rest :
  is_host host = true -> no_host rest = true ->
  host_and_path (host +:+ rest) = Some (host, leading dot rest).
Proof.
  unfold is_host. intros Hh Hr. apply andb_true_iff in Hh as [Hne Hall].
  assert (Hhead : forall c r, rest = String c r ->
                    not_slash_or_space c = false).
  { intros c r ->. simpl in Hr. apply negb_true_iff in Hr. exact Hr. }
  destruct (leading_app_host _ _ _ Hall Hhead) as [Hl Ha].
  unfold host_and_path. rewrite Hl, Ha.
  destruct host as [|c host]; [discriminate Hne|].
  simpl in *. rewrite (negb_true_iff _) in Hne. rewrite Hne. reflexivity.
Qed.

Lemma strip_prefix_cons a p b s r :
  strip_prefix (String a p) (String b s) = Some r ->
  a = b /\ strip_prefix p s = Some r.
Proof.
  cbn [strip_prefix]. destruct (Ascii.eqb a b) eqn:E; [|discriminate].
  apply Ascii.eqb_eq in E. auto.
Qed.

(** Only the host [wss:] before a rest that starts with two slashes reads
    as the scheme. *)
Lemma strip_prefix_wss_host host rest r :
  is_host host = true -> no_host rest = true ->
  strip_prefix "wss://" (host +:+ rest) = Some r -> host = "wss:".
Proof.
  unfold is_host. intros Hh Hr Hs. apply andb_true_iff in Hh as [Hne Hall].
  assert (Hrest : forall c r', rest = String c r' ->
                    not_slash_or_space c = false).
  { intros c r' ->. simpl in Hr. apply negb_true_iff in Hr. exact Hr. }
  destruct host as [|c1 host]; [discriminate Hne|]. clear Hne.
  simpl in Hall. apply andb_true_iff in Hall as [_ Hall].
  apply strip_prefix_cons in Hs as [<- Hs].
  destruct host as [|c2 host].
  { destruct rest as [|c r']; [discriminate Hs|].
    apply strip_prefix_cons in Hs as [<- _].
    discriminate (Hrest _ _ eq_refl). }
  simpl in Hall. apply andb_true_iff in Hall as [_ Hall].
  apply strip_prefix_cons in Hs as [<- Hs].
  destruct host as [|c3 host].
  { destruct rest as [|c r']; [discriminate Hs|].
    apply strip_prefix_cons in Hs as [<- _].
    discriminate (Hrest _ _ eq_refl). }
  simpl in Hall. apply andb_true_iff in Hall as [_ Hall].
  apply strip_prefix_cons in Hs as [<- Hs].
  destruct host as [|c4 host].
  { destruct rest as [|c r']; [discriminate Hs|].
    apply strip_prefix_cons in Hs as [<- _].
    discriminate (Hrest _ _ eq_refl). }
  simpl in Hall. apply andb_true_iff in Hall as [_ Hall].
  apply strip_prefix_cons in Hs as [<- Hs].
  destruct host as [|c5 host]; [reflexivity|].
  simpl in Hall. apply andb_true_iff in Hall as [Hc5 _].
  apply strip_prefix_cons in Hs as [<- _]. discriminate Hc5.
Qed.

(** The path component does not depend on the host, nor on whether the
    URL starts with [wss://]: it is the first line of what follows the
    host. *)
Lemma path_group_3_url wss host rest :
  is_host host = true -> no_host rest = true ->
  (wss = false -> host <> "wss:") ->
  path_group_3 (url_of wss host rest) = Return (Some (leading dot rest)).
Proof.
  intros Hh Hr Hw. rewrite path_group_3_spec.
  unfold path_component, url_of. destruct wss.
  - change (strip_prefix "wss://" ("wss://" +:+ host +:+ rest))
      with (Some (host +:+ rest)).
    cbv beta iota. rewrite (host_and_path_parts _ _ Hh Hr). reflexivity.
  - change ("" +:+ host +:+ rest) with (host +:+ rest).
    destruct (strip_prefix "wss://" (host +:+ rest)) as [r|] eqn:Hs.
    + apply strip_prefix_wss_host in Hs; [|assumption..].
      exfalso. exact (Hw eq_refl Hs).
    + rewrite (host_and_path_parts _ _ Hh Hr). reflexivity.
Qed.

(** ** The loop over the dictionary *)

Lemma loop_skips {H} (p : option string) (before rest : dict_items H) :
  Forall (other_path p) before ->
  identify_ws_method_loop p (before ++ rest) = identify_ws_method_loop p rest.
Proof.
  induction 1 as [|[k h] before (q & Hq & Hne) _ IH]; [reflexivity|].
  simpl in *. rewrite Hq. destruct (decide (p = q)); [congruence|exact IH].
Qed.

Lemma path_group_3_no_host url :
  no_host url = true -> path_group_3 url = Raise no_match_object.
Proof.
  intros Hn. unfold path_group_3.
  rewrite (proj2 (re_match_path_None url) Hn). reflexivity.
Qed.

Lemma identify_ws_method_at_key {H} (p : option string) (key : string)
    (handler : H) (before after : dict_items H) :
  Forall (other_path p) before ->
  identify_ws_method_loop p (before ++ (key, handler) :: after)
  = match path_group_3 key with
    | Raise e => Raise e
    | Return q =>
        if decide (p = q) then Return (Some handler)
        else identify_ws_method_loop p after
    end.
Proof. intros Hb. rewrite (loop_skips _ _ _ Hb). reflexivity. Qed.

(** ** Claims *)

(** C2, as the code has it.  When the pattern gives the target and a key
    of the table the same path component, and every key before that one
    in the table is matched with another path component,
    [identify_ws_method] returns the handler bound to that key.  The path
    component is the first line of what follows the host, whatever the
    host, with [wss://] before it or with no scheme; no other scheme is
    recognised. *)
Theorem identify_ws_method_same_path {H} (target key : string)
    (p : option string) (handler : H) (before after : dict_items H) :
  path_group_3 target = Return p ->
  path_group_3 key = Return p ->
  Forall (other_path p) before ->
  identify_ws_method target (before ++ (key, handler) :: after)
    = Return (Some handler) /\
  (forall wss host rest,
     is_host host = true -> no_host rest = true ->
     (wss = false -> host <> "wss:") ->
     path_group_3 (url_of wss host rest) = Return (Some (leading dot rest))).
Proof.
  intros Ht Hk Hb. split.
  - unfold identify_ws_method. rewrite Ht.
    rewrite (identify_ws_method_at_key _ _ _ _ _ Hb), Hk.
    destruct (decide (p = p)); congruence.
  - exact path_group_3_url.
Qed.

(** C6, as the code has it.  When the pattern matches the target and
    every key of the table, and no key has the path component of the
    target, [identify_ws_method] goes through the whole table and returns
    [None]. *)
Theorem identify_ws_method_no_match {H} (target : string)
    (p : option string) (table : dict_items H) :
  path_group_3 target = Return p ->
  Forall (other_path p) table ->
  identify_ws_method target table = Return None.
Proof.
  intros Ht Hb. unfold identify_ws_method. rewrite Ht.
  rewrite <- (app_nil_r table). rewrite (loop_skips _ _ _ Hb). reflexivity.
Qed.

(** C10, as the code has it.  [identify_ws_method] raises
    [AttributeError] when the target has no host at its start (it is
    empty, or starts with a slash or with whitespace), whatever the
    table; and when the loop reaches a key with no host at its start,
    that is when the target is matched and the keys before that one are
    matched with other path components than the target's. *)
Theorem identify_ws_method_no_host {H} (target : string)
    (table : dict_items H) :
  no_host target = true \/
  (exists p key handler (before after : dict_items H),
     path_group_3 target = Return p /\
     table = (before ++ (key, handler) :: after)%list /\
     no_host key = true /\ Forall (other_path p) before) ->
  identify_ws_method target table = Raise no_match_object.
Proof.
  intros [Hn|(p & key & handler & before & after & Ht & -> & Hn & Hb)];
    unfold identify_ws_method.
  - rewrite (path_group_3_no_host _ Hn). reflexivity.
  - rewrite Ht, (identify_ws_method_at_key _ _ _ _ _ Hb).
    rewrite (path_group_3_no_host _ Hn). reflexivity.
Qed.

(** ** The claims on concrete tables *)

(** The scenario of two endpoints on one host and a target on another. *)
Example identify_ws_method_scenario :
  identify_ws_method "wss://b.x/v5/public/linear"
    [("wss://a.x/v5/public/spot", 1%nat);
     ("wss://a.x/v5/public/linear", 2%nat)]
  = Return (Some 2%nat).
Proof. vm_compute. reflexivity. Qed.

Lemma identify_ws_method_same_path_witness :
  path_group_3 "testnet.bybit.com/v5/public/linear"
    = Return (Some "/v5/public/linear") /\
  path_group_3 "wss://stream.bybit.com/v5/public/linear"
    = Return (Some "/v5/public/linear") /\
  Forall (other_path (Some "/v5/public/linear"))
    [("wss://stream.bybit.com/v5/public/spot", 1%nat)] /\
  identify_ws_method "testnet.bybit.com/v5/public/linear"
    ([("wss://stream.bybit.com/v5/public/spot", 1%nat)] ++
     ("wss://stream.bybit.com/v5/public/linear", 2%nat) ::
     [("wss://stream.bybit.com/v5/private", 3%nat)])
  = Return (Some 2%nat).
Proof.
  assert (Ht : path_group_3 "testnet.bybit.com/v5/public/linear"
               = Return (Some "/v5/public/linear"))
    by (vm_compute; reflexivity).
  assert (Hk : path_group_3 "wss://stream.bybit.com/v5/public/linear"
               = Return (Some "/v5/public/linear"))
    by (vm_compute; reflexivity).
  assert (Hb : Forall (other_path (Some "/v5/public/linear"))
                 [("wss://stream.bybit.com/v5/public/spot", 1%nat)]).
  { constructor; [|constructor]. exists (Some "/v5/public/spot").
    split; [vm_compute; reflexivity|discriminate]. }
  split; [exact Ht|]. split; [exact Hk|]. split; [exact Hb|].
  exact (proj1 (identify_ws_method_same_path _ _ _ 2%nat _
                  [("wss://stream.bybit.com/v5/private", 3%nat)] Ht Hk Hb)).
Defined.

(** C2 as stated fails, in three ways.  A key with the scheme [https://]
    has the path [/v5/public/spot] after its scheme and host, as the
    target has, yet the target is not routed to it: the pattern reads
    [https:] as the host.  Of two keys with the path component of the
    target, the handler of the first is returned, not the one of the
    second.  And a key before the matching one that has no host makes the
    call raise. *)
Lemma identify_ws_method_scheme_and_order :
  (spec_path_component "https://stream.bybit.com/v5/public/spot"
   = spec_path_component "wss://testnet.bybit.com/v5/public/spot" /\
   path_group_3 "https://stream.bybit.com/v5/public/spot"
   = Return (Some "//stream.bybit.com/v5/public/spot") /\
   identify_ws_method "wss://testnet.bybit.com/v5/public/spot"
     [("https://stream.bybit.com/v5/public/spot", 1%nat)]
   = Return None) /\
  (path_group_3 "wss://c.x/p" = path_group_3 "wss://b.x/p" /\
   identify_ws_method "wss://c.x/p"
     [("wss://a.x/p", 1%nat); ("wss://b.x/p", 2%nat)]
   = Return (Some 1%nat)) /\
  (path_group_3 "wss://b.x/p" = path_group_3 "wss://a.x/p" /\
   identify_ws_method "wss://b.x/p"
     [("/q", 1%nat); ("wss://a.x/p", 2%nat)]
   = Raise no_match_object).
Proof. vm_compute. repeat split. Qed.

Lemma identify_ws_method_no_match_witness :
  path_group_3 "wss://b.x/v5/public/linear"
    = Return (Some "/v5/public/linear") /\
  Forall (other_path (Some "/v5/public/linear"))
    [("wss://a.x/v5/public/spot", 1%nat)] /\
  identify_ws_method "wss://b.x/v5/public/linear"
    [("wss://a.x/v5/public/spot", 1%nat)] = Return None.
Proof.
  assert (Ht : path_group_3 "wss://b.x/v5/public/linear"
               = Return (Some "/v5/public/linear"))
    by (vm_compute; reflexivity).
  assert (Hb : Forall (other_path (Some "/v5/public/linear"))
                 [("wss://a.x/v5/public/spot", 1%nat)]).
  { constructor; [|constructor]. exists (Some "/v5/public/spot").
    split; [vm_compute; reflexivity|discriminate]. }
  split; [exact Ht|]. split; [exact Hb|].
  exact (identify_ws_method_no_match _ _ _ Ht Hb).
Defined.

(** C6 as stated fails.  No key has the path component of the target,
    yet the call raises instead of returning [None]: with the empty
    target and the empty table, and with a matched target and a key that
    has no host. *)
Lemma identify_ws_method_no_match_raises :
  (Forall (fun item : string * nat =>
             path_group_3 item.1 <> path_group_3 "") [] /\
   identify_ws_method "" ([] : dict_items nat) = Raise no_match_object) /\
  (Forall (fun item : string * nat =>
             path_group_3 item.1 <> path_group_3 "wss://a.x/v5/public/spot")
     [("/v5/private", 1%nat)] /\
   identify_ws_method "wss://a.x/v5/public/spot" [("/v5/private", 1%nat)]
   = Raise no_match_object).
Proof.
  split; split; try (vm_compute; reflexivity).
  - constructor.
  - constructor; [|constructor]. vm_compute. discriminate.
Qed.

Lemma identify_ws_method_no_host_witness :
  (no_host "/v5/public/spot" = true \/
   (exists p key handler (before after : dict_items nat),
      path_group_3 "/v5/public/spot" = Return p /\
      [("wss://stream.bybit.com/v5/public/spot", 1%nat)]
      = (before ++ (key, handler) :: after)%list /\
      no_host key = true /\ Forall (other_path p) before)) /\
  identify_ws_method "/v5/public/spot"
    [("wss://stream.bybit.com/v5/public/spot", 1%nat)]
  = Raise no_match_object.
Proof.
  assert (Hn : no_host "/v5/public/spot" = true) by reflexivity.
  split; [left; exact Hn|].
  exact (identify_ws_method_no_host _ _ (or_introl Hn)).
Defined.

(** C10 as stated fails for a key the loop does not reach: the second key
    has no host, the first one has the path component of the target, and
    the call returns the first handler. *)
Lemma identify_ws_method_unreached_key :
  no_host "/p" = true /\
  identify_ws_method "wss://b.x/p" [("wss://a.x/p", 1%nat); ("/p", 2%nat)]
  = Return (Some 1%nat).
Proof. vm_compute. split; reflexivity. Qed.

End EndpointRouterProofs.

(** * Properties of the supporting helpers *)
Module SupportProofs.
Import Support.
Local Open Scope list_scope.

Section FindIndex.

Context {V : Type} `{EqDecision V}.
Implicit Types (source : list (gmap string V)) (target j : gmap string V).

(** The generator, started at position [i], on a list that begins with
    records that have the key with other values than the target's. *)
Lemma next_index_skips i source rest target key v :
  target !! key = Some v ->
  Forall (fun j => exists v', j !! key = Some v' /\ v' <> v) source ->
  next_index i (source ++ rest) target key
  = next_index (i + length source) rest target key.
Proof.
  intros Ht Hs. revert i.
  induction Hs as [|j source (v' & Hj & Hne) _ IH]; intros i; simpl.
  - f_equal. lia.
  - unfold getitem at 1 2. rewrite Hj, Ht.
    destruct (decide (v' = v)); [contradiction|].
    rewrite IH. f_equal. lia.
Qed.

(** The generator never yields a position whose record has not the value
    of the target. *)
Lemma next_index_sound i source target key n :
  next_index i source target key = Return n ->
  exists j v, source !! (n - i)%nat = Some j /\ (i <= n)%nat /\
              j !! key = Some v /\ target !! key = Some v.
Proof.
  revert i. induction source as [|j source IH]; intros i; simpl;
    [discriminate|].
  unfold getitem at 1 2.
  destruct (j !! key) as [a|] eqn:Hj; [|discriminate].
  destruct (target !! key) as [b|] eqn:Ht; [|discriminate].
  destruct (decide (a = b)) as [->|Hne].
  - intros [= <-]. exists j, b. rewrite Nat.sub_diag. auto.
  - intros Hn. destruct (IH _ Hn) as (j' & v & Hl & Hle & Hj' & Hv).
    exists j', v. repeat split; [|lia|assumption..].
    replace (n - i)%nat with (S (n - S i)) by lia. exact Hl.
Qed.

(** What the generator raises: [KeyError] for the key, or
    [StopIteration]. *)
Lemma next_index_raises i source target key e :
  next_index i source target key = Raise e ->
  e = StopIteration \/ e = KeyError key.
Proof.
  revert i. induction source as [|j source IH]; intros i; simpl.
  - intros [= <-]. auto.
  - unfold getitem at 1 2.
    destruct (j !! key) as [a|]; [|intros [= <-]; auto].
    destruct (target !! key) as [b|]; [|intros [= <-]; auto].
    destruct (decide (a = b)); [discriminate|apply IH].
Qed.

(** With a target that has not the key, the first test raises. *)
Lemma next_index_target_without_key i source target key :
  target !! key = None -> source <> [] ->
  next_index i source target key = Raise (KeyError key).
Proof.
  intros Ht Hs. destruct source as [|j source]; [contradiction|].
  simpl. unfold getitem. rewrite Ht. destruct (j !! key); reflexivity.
Qed.

(** When no record has the value of the target, the generator gets to
    every record, also to one that has not the key. *)
Lemma next_index_record_without_key i source target key j :
  (forall j' v, j' ∈ source -> j' !! key = Some v -> target !! key <> Some v) ->
  j ∈ source -> j !! key = None ->
  next_index i source target key = Raise (KeyError key).
Proof.
  intros Hnone Hin Hj. revert i.
  induction source as [|j0 source IH]; intros i; [inversion Hin|].
  simpl. unfold getitem at 1 2.
  destruct (j0 !! key) as [a|] eqn:Hj0; [|reflexivity].
  destruct (target !! key) as [b|] eqn:Ht; [|reflexivity].
  destruct (decide (a = b)) as [->|Hne].
  - exfalso. apply (Hnone j0 b); [left|exact Hj0|reflexivity].
  - apply IH.
    + intros j' v Hin'. apply Hnone. right. exact Hin'.
    + apply elem_of_cons in Hin as [->|Hin]; [congruence|exact Hin].
Qed.

(** C8, as the code has it.  When the record at position [i] is the
    first one whose value at the key is the target's, and every record
    before it has the key, [find_index] returns [i].  When no record has
    the value of the target at the key, [find_index] returns nothing: it
    raises [StopIteration], or [KeyError] for a record or a target that
    has not the key; with the key in the target and in every record it is
    [StopIteration]; with a record that has not the key it is [KeyError].
    With a target that has not the key and at least one record it is
    [KeyError]; with no record it is [StopIteration]. *)
Theorem find_index_first_match source target key :
  (forall i j v,
     target !! key = Some v -> source !! i = Some j -> j !! key = Some v ->
     (forall i' j', (i' < i)%nat -> source !! i' = Some j' ->
        exists v', j' !! key = Some v' /\ v' <> v) ->
     find_index source target key = Return i) /\
  ((forall j v, j ∈ source -> j !! key = Some v -> target !! key <> Some v) ->
   (exists e, find_index source target key = Raise e /\
              (e = StopIteration \/ e = KeyError key)) /\
   (is_Some (target !! key) -> Forall (fun j => is_Some (j !! key)) source ->
    find_index source target key = Raise StopIteration) /\
   (forall j, j ∈ source -> j !! key = None ->
    find_index source target key = Raise (KeyError key))) /\
  (target !! key = None -> source <> [] ->
   find_index source target key = Raise (KeyError key)) /\
  (source = [] -> find_index source target key = Raise StopIteration).
Proof.
  split; [|split; [|split;
    [apply next_index_target_without_key|intros ->; reflexivity]]].
  - intros i j v Ht Hi Hj Hbefore.
    apply list_elem_of_split_length in Hi as (before & rest & -> & ->).
    unfold find_index. rewrite (next_index_skips 0 before _ _ _ v Ht).
    + simpl. unfold getitem. rewrite Hj, Ht.
      destruct (decide (v = v)); congruence.
    + apply Forall_lookup. intros i' j' Hl.
      apply (Hbefore i' j').
      * apply lookup_lt_Some in Hl. exact Hl.
      * rewrite lookup_app_l; [exact Hl|]. apply lookup_lt_Some in Hl. exact Hl.
  - intros Hnone. split; [|split].
    + destruct (find_index source target key) as [e|n] eqn:Hf.
      * exists e. split; [reflexivity|].
        apply (next_index_raises _ _ _ _ _ Hf).
      * exfalso. destruct (next_index_sound _ _ _ _ _ Hf)
          as (j & v & Hl & _ & Hj & Ht).
        apply (Hnone j v); [|assumption..].
        apply list_elem_of_lookup. eauto.
    + intros [v Ht] Hall. unfold find_index.
      rewrite <- (app_nil_r source).
      rewrite (next_index_skips 0 source [] _ _ v Ht); [reflexivity|].
      apply Forall_forall. intros j Hin.
      rewrite Forall_forall in Hall. destruct (Hall j Hin) as [v' Hj].
      exists v'. split; [exact Hj|]. intros ->.
      exact (Hnone j v Hin Hj Ht).
    + intros j. apply next_index_record_without_key. exact Hnone.
Qed.

End FindIndex.

(** C8 as stated fails: the record at position 1 is the first one whose
    value at the key is the target's, the record before it has not the
    key, and [find_index] raises [KeyError] instead of returning 1. *)
Lemma find_index_missing_key :
  let source : list (gmap string Z) := [∅; {["id" := 7]}] in
  let target : gmap string Z := {["id" := 7]} in
  (exists j, source !! 1%nat = Some j /\ j !! "id" = target !! "id") /\
  (exists j, source !! 0%nat = Some j /\ j !! "id" = None) /\
  find_index source target "id" = Raise (KeyError "id").
Proof.
  repeat split.
  - exists {["id" := 7]}. split; reflexivity.
  - exists ∅. split; reflexivity.
Qed.

Lemma find_index_first_match_witness :
  let source : list (gmap string Z) :=
    [{["id" := 5]}; {["id" := 7]}; {["id" := 7]}] in
  let target : gmap string Z := {["id" := 7]} in
  target !! "id" = Some 7 /\
  source !! 1%nat = Some {["id" := 7]} /\
  (forall i' j', (i' < 1)%nat -> source !! i' = Some j' ->
     exists v', j' !! "id" = Some v' /\ v' <> 7) /\
  find_index source target "id" = Return 1%nat.
Proof.
  intros source target.
  assert (Ht : target !! "id" = Some 7) by reflexivity.
  assert (Hi : source !! 1%nat = Some ({["id" := 7]} : gmap string Z))
    by reflexivity.
  assert (Hj : ({["id" := 7]} : gmap string Z) !! "id" = Some 7)
    by reflexivity.
  assert (Hb : forall i' j', (i' < 1)%nat -> source !! i' = Some j' ->
                 exists v', j' !! "id" = Some v' /\ v' <> 7).
  { intros [|i'] j' Hlt Hl; [|lia]. injection Hl as <-.
    exists 5. split; [reflexivity|discriminate]. }
  split; [exact Ht|]. split; [exact Hi|]. split; [exact Hb|].
  exact (proj1 (find_index_first_match source target "id")
           1%nat _ 7 Ht Hi Hj Hb).
Defined.

Example find_index_second_record :
  find_index ([{["id" := 5]}; {["id" := 7]}; {["id" := 7]}]
               : list (gmap string Z)) {["id" := 7]} "id"
  = Return 1%nat.
Proof. reflexivity. Qed.

Example find_index_target_without_key :
  find_index ([{["id" := 5]}] : list (gmap string Z)) ∅ "id"
  = Raise (KeyError "id").
Proof. reflexivity. Qed.

Example find_index_not_found :
  find_index ([{["id" := 5]}] : list (gmap string Z)) {["id" := 7]} "id"
  = Raise StopIteration.
Proof. reflexivity. Qed.

Section Connections.

Context {Connection : Type}.
Variable is_connected : Connection -> bool.

Local Abbreviation connected := (fun c => is_connected c = true).
Local Abbreviation all_connected :=
  (are_connections_connected is_connected).

Lemma all_connected_through (before rest : list Connection) :
  Forall connected before ->
  all_connected (before ++ rest)
  = (fst (all_connected rest), before ++ snd (all_connected rest)).
Proof.
  induction 1 as [|c before Hc _ IH]; simpl.
  - destruct (all_connected rest); reflexivity.
  - rewrite Hc. simpl. rewrite IH. reflexivity.
Qed.

(** C9.  [are_connections_connected] returns [True] exactly when every
    connection answers [True]; on the empty sequence it returns [True];
    one disconnected member, wherever it is, makes it return [False]; it
    asks the connections in order and stops at the first disconnected
    one, asking none after it. *)
Theorem are_connections_connected_spec (connections : list Connection) :
  (fst (are_connections_connected is_connected connections) = true
   <-> Forall (fun c => is_connected c = true) connections) /\
  are_connections_connected is_connected [] = (true, []) /\
  (forall before c after,
     connections = before ++ c :: after -> is_connected c = false ->
     fst (are_connections_connected is_connected connections) = false) /\
  (forall before c after,
     connections = before ++ c :: after ->
     Forall (fun c => is_connected c = true) before ->
     is_connected c = false ->
     are_connections_connected is_connected connections
     = (false, before ++ [c])) /\
  (Forall (fun c => is_connected c = true) connections ->
   are_connections_connected is_connected connections
   = (true, connections)).
Proof.
  assert (Hall : forall l, Forall connected l -> all_connected l = (true, l)).
  { intros l Hl. rewrite <- (app_nil_r l) at 1.
    rewrite (all_connected_through _ _ Hl). simpl.
    rewrite app_nil_r. reflexivity. }
  assert (Hiff : forall l,
            fst (all_connected l) = true <-> Forall connected l).
  { intros l. split; [|intros Hl; rewrite (Hall l Hl); reflexivity].
    induction l as [|c l IH]; simpl; [constructor|].
    destruct (is_connected c) eqn:Hc; simpl; [|discriminate].
    destruct (all_connected l) as [answer invoked]. simpl in *.
    intros Ha. constructor; auto. }
  split; [apply Hiff|]. split; [reflexivity|]. split; [|split; [|apply Hall]].
  - intros before c after -> Hc.
    destruct (fst (all_connected (before ++ c :: after))) eqn:Hf;
      [|reflexivity].
    apply Hiff in Hf. apply Forall_app in Hf as [_ Hf].
    inversion Hf as [|? ? Hc' _]. congruence.
  - intros before c after -> Hb Hc.
    rewrite (all_connected_through _ _ Hb). simpl. rewrite Hc. reflexivity.
Qed.

End Connections.

Example are_connections_connected_stops :
  are_connections_connected (fun c : nat * bool => c.2)
    [(1%nat, true); (2%nat, false); (3%nat, true); (4%nat, false)]
  = (false, [(1%nat, true); (2%nat, false)]).
Proof. reflexivity. Qed.

End SupportProofs.

(** * Properties of ClockSync *)
Module ClockSyncProofs.
Import ClockSync.

(** Rounding down against truncation, for a negative number of
    nanoseconds that is no whole number of milliseconds. *)
Lemma floor_below_truncation (x : Z) :
  x < 0 -> x mod 1000000 <> 0 -> x / 1000000 = Z.quot x 1000000 - 1.
Proof.
  intros Hneg Hrem.
  pose proof (Z.div_mod x 1000000 ltac:(lia)) as Hd.
  pose proof (Z.mod_pos_bound x 1000000 ltac:(lia)) as Hm.
  pose proof (Z.quot_rem' x 1000000) as Hq.
  pose proof (Z.rem_bound_abs x 1000000 ltac:(lia)) as Hr.
  pose proof (Z.rem_nonpos x 1000000 ltac:(lia) ltac:(lia)) as Hs.
  lia.
Qed.

Section Run.

Context {float : Type}.
Variables (int_mul_1e9 int_mul_1000 : float -> Z).
Variables (time_at : nat -> float) (server : Session -> nat -> fetch_outcome).

Local Abbreviation get_delay := (get_server_time_delay int_mul_1e9 time_at server).
Local Abbreviation gen_req :=
  (generate_req_timestamp int_mul_1e9 int_mul_1000 time_at server).
Local Abbreviation gen_local := (generate_timestamp int_mul_1000 time_at).
Local Abbreviation reachable_world :=
  (reachable int_mul_1e9 int_mul_1000 time_at server).

(** ** The four ways a call of [get_server_time_delay] goes *)

Lemma get_delay_hit s d w :
  delay_cache w = Some (s, d) -> get_delay s w = (Return d, w).
Proof.
  intros Hc. unfold get_server_time_delay, lru_cache_maxsize_1.
  rewrite Hc. destruct (Nat.eq_dec s s); congruence.
Qed.

Lemma get_delay_miss s w :
  not_cached s w ->
  get_delay s w =
    match get_server_time_delay_body int_mul_1e9 time_at server s w with
    | (Return r, w') =>
        (Return r,
         {| delay_cache := Some (s, r); ticks := ticks w';
            fetched := fetched w'; output := output w' |})
    | (Raise e, w') => (Raise e, w')
    end.
Proof.
  intros Hn. unfold get_server_time_delay, lru_cache_maxsize_1.
  destruct (delay_cache w) as [[k r]|] eqn:Hc; [|reflexivity].
  destruct (Nat.eq_dec k s) as [->|]; [|reflexivity].
  exfalso. apply (Hn r). exact Hc.
Qed.

Lemma get_delay_measures s w response :
  not_cached s w ->
  server s (fetch_count s w) = Returned response ->
  retCode response = 0 ->
  let delay := timeNano response - int_mul_1e9 (time_at (ticks w)) in
  get_delay s w =
    (Return delay,
     {| delay_cache := Some (s, delay); ticks := S (ticks w);
        fetched := s :: fetched w;
        output := LogInfo ("Calculated delay: " +:+ pretty delay +:+
                           " nanoseconds") :: output w |}).
Proof.
  intros Hn Hs Hz. rewrite get_delay_miss by assumption.
  unfold get_server_time_delay_body, try_except, bind, get_server_time.
  rewrite Hs, Hz. reflexivity.
Qed.

Lemma get_delay_error_code s w response :
  not_cached s w ->
  server s (fetch_count s w) = Returned response ->
  retCode response <> 0 ->
  let message := "Error retrieving Bybit server time: " +:+ retMsg response in
  get_delay s w =
    (Raise (Exception message),
     {| delay_cache := delay_cache w; ticks := ticks w;
        fetched := s :: fetched w;
        output := LogError ("Error retrieving Bybit server time: " +:+ message)
                  :: LogError message :: output w |}).
Proof.
  intros Hn Hs Hz. rewrite get_delay_miss by assumption.
  unfold get_server_time_delay_body, try_except, bind, get_server_time.
  rewrite Hs. apply Z.eqb_neq in Hz. rewrite Hz. reflexivity.
Qed.

Lemma get_delay_raised s w e :
  not_cached s w ->
  server s (fetch_count s w) = Raised e ->
  get_delay s w =
    (Raise e,
     {| delay_cache := delay_cache w; ticks := ticks w;
        fetched := s :: fetched w;
        output :=
          if is_Exception e
          then LogError ("Error retrieving Bybit server time: " +:+
                         str_exn e) :: output w
          else output w |}).
Proof.
  intros Hn Hs. rewrite get_delay_miss by assumption.
  unfold get_server_time_delay_body, try_except, bind, get_server_time.
  rewrite Hs. destruct (is_Exception e); reflexivity.
Qed.

Lemma cached_or_not s w :
  (exists d, delay_cache w = Some (s, d)) \/ not_cached s w.
Proof.
  destruct (delay_cache w) as [[k d]|] eqn:Hc.
  - destruct (Nat.eq_dec k s) as [->|Hne].
    + left. eauto.
    + right. intros d' H. congruence.
  - right. intros d' H. congruence.
Qed.

(** An exception that [get_server_time_delay] raises and that is no
    instance of [Exception] is the one its fetch raised. *)
Lemma get_delay_not_Exception s w e w1 :
  get_delay s w = (Raise e, w1) -> is_Exception e = false ->
  server s (fetch_count s w) = Raised e.
Proof.
  intros Hg He. destruct (cached_or_not s w) as [[d Hd]|Hn].
  - rewrite (get_delay_hit _ _ _ Hd) in Hg. discriminate Hg.
  - destruct (server s (fetch_count s w)) as [r|e0] eqn:Hs.
    + destruct (Z.eq_dec (retCode r) 0) as [Hz|Hz].
      * rewrite (get_delay_measures _ _ _ Hn Hs Hz) in Hg. discriminate Hg.
      * rewrite (get_delay_error_code _ _ _ Hn Hs Hz) in Hg.
        injection Hg as <- _. discriminate He.
    + rewrite (get_delay_raised _ _ _ Hn Hs) in Hg.
      injection Hg as -> _. reflexivity.
Qed.

(** ** The three ways a call of [generate_req_timestamp] goes *)

Lemma gen_req_no_session w :
  gen_req None w =
    (Return (int_mul_1000 (time_at (ticks w))),
     {| delay_cache := delay_cache w; ticks := S (ticks w);
        fetched := fetched w;
        output := Print "No session available, using UTC time as req_timestamp"
                  :: output w |}).
Proof. reflexivity. Qed.

Lemma gen_req_adjusted s w d w1 :
  get_delay s w = (Return d, w1) ->
  gen_req (Some s) w =
    (Return ((int_mul_1e9 (time_at (ticks w1)) + d) / 1000000),
     {| delay_cache := delay_cache w1; ticks := S (ticks w1);
        fetched := fetched w1; output := output w1 |}).
Proof.
  intros H. unfold generate_req_timestamp, try_except, bind.
  rewrite H. reflexivity.
Qed.

Lemma gen_req_fallback s w e w1 :
  get_delay s w = (Raise e, w1) -> is_Exception e = true ->
  gen_req (Some s) w =
    (Return (int_mul_1000 (time_at (ticks w1))),
     {| delay_cache := delay_cache w1; ticks := S (ticks w1);
        fetched := fetched w1;
        output :=
          Print "No session available, using UTC time as req_timestamp"
          :: LogError
               "Failed to get server time delay, falling back to UTC time."
          :: output w1 |}).
Proof.
  intros H He. unfold generate_req_timestamp, try_except, bind.
  rewrite H, He. reflexivity.
Qed.

Lemma gen_req_escapes s w e w1 :
  get_delay s w = (Raise e, w1) -> is_Exception e = false ->
  gen_req (Some s) w = (Raise e, w1).
Proof.
  intros H He. unfold generate_req_timestamp, try_except, bind.
  rewrite H, He. cbv beta iota. rewrite He. reflexivity.
Qed.

(** ** What calls do to the cache slot and to the fetch log *)

Lemma fetch_count_cons s s' w c t o :
  (fetch_count s w <=
   fetch_count s {| delay_cache := c; ticks := t;
                    fetched := s' :: fetched w; output := o |})%nat.
Proof.
  unfold fetch_count. simpl. destruct (Nat.eq_dec s' s); lia.
Qed.

Lemma fetch_count_cons_eq s w c t o :
  fetch_count s {| delay_cache := c; ticks := t;
                   fetched := s :: fetched w; output := o |}
  = S (fetch_count s w).
Proof.
  unfold fetch_count. simpl. destruct (Nat.eq_dec s s); congruence.
Qed.

Lemma fetch_count_cons_ne s s' w c t o :
  s' <> s ->
  fetch_count s {| delay_cache := c; ticks := t;
                   fetched := s' :: fetched w; output := o |}
  = fetch_count s w.
Proof.
  intros Hne. unfold fetch_count. simpl.
  destruct (Nat.eq_dec s' s); congruence.
Qed.

Lemma cache_measured_kept w w' :
  delay_cache w' = delay_cache w ->
  (forall s, (fetch_count s w <= fetch_count s w')%nat) ->
  cache_measured server w -> cache_measured server w'.
Proof.
  intros Hc Hf Hm s d Hs. rewrite Hc in Hs.
  destruct (Hm s d Hs) as (k & r & Hk & Hr & Hz).
  exists k, r. split; [|auto]. specialize (Hf s). lia.
Qed.

Lemma get_delay_keeps_measured s w :
  cache_measured server w -> cache_measured server (snd (get_delay s w)).
Proof.
  intros Hm. destruct (cached_or_not s w) as [[d Hd]|Hn].
  - rewrite (get_delay_hit _ _ _ Hd). exact Hm.
  - destruct (server s (fetch_count s w)) as [r|e] eqn:Hs.
    + destruct (Z.eq_dec (retCode r) 0) as [Hz|Hz].
      * rewrite (get_delay_measures _ _ _ Hn Hs Hz). simpl.
        intros s' d' Hc. simpl in Hc. injection Hc as <- <-.
        exists (fetch_count s w), r. rewrite fetch_count_cons_eq. auto.
      * rewrite (get_delay_error_code _ _ _ Hn Hs Hz). simpl.
        apply (cache_measured_kept w); [reflexivity| |exact Hm].
        intros s'. apply fetch_count_cons.
    + rewrite (get_delay_raised _ _ _ Hn Hs). simpl.
      apply (cache_measured_kept w); [reflexivity| |exact Hm].
      intros s'. apply fetch_count_cons.
Qed.

Lemma after_call_keeps_measured c w :
  cache_measured server w ->
  cache_measured server
    (after_call int_mul_1e9 int_mul_1000 time_at server c w).
Proof.
  intros Hm. destruct c as [s|[s|]|]; cbn [after_call].
  - apply get_delay_keeps_measured, Hm.
  - pose proof (get_delay_keeps_measured s w Hm) as Hg.
    destruct (get_delay s w) as [[e|d] w1] eqn:Hd.
    + destruct (is_Exception e) eqn:He.
      * rewrite (gen_req_fallback _ _ _ _ Hd He). simpl in *.
        apply (cache_measured_kept w1); [reflexivity|reflexivity|exact Hg].
      * rewrite (gen_req_escapes _ _ _ _ Hd He). exact Hg.
    + rewrite (gen_req_adjusted _ _ _ _ Hd). simpl in *.
      apply (cache_measured_kept w1); [reflexivity|reflexivity|exact Hg].
  - rewrite gen_req_no_session. simpl.
    apply (cache_measured_kept w); [reflexivity|reflexivity|exact Hm].
  - apply (cache_measured_kept w); [reflexivity|reflexivity|exact Hm].
Qed.

(** In every world a process can be in, the slot holds a measured delay. *)
Lemma reachable_cache_measured w :
  reachable_world w -> cache_measured server w.
Proof.
  induction 1 as [|c w Hr IH].
  - intros s d H. discriminate H.
  - apply after_call_keeps_measured, IH.
Qed.

(** A session whose fetches all fail never gets into the slot. *)
Lemma failing_session_not_cached s w :
  fetch_fails server s -> reachable_world w -> not_cached s w.
Proof.
  intros Hf Hr d Hc.
  destruct (reachable_cache_measured w Hr s d Hc) as (k & r & _ & Hs & Hz).
  specialize (Hf k). rewrite Hs in Hf. contradiction.
Qed.

(** ** Claims *)

(** C1, as the code has it.  The cache of [get_server_time_delay] is the
    single slot of [lru_cache(maxsize=1)].  For a session [a] whose
    fetches answer with code 0, from any world: two calls in a row return
    the same delay, the second one leaves the world untouched, and the
    two together invoke [a.get_server_time()] at most once.  A call for
    another such session [b] in between takes the slot: the next call for
    [a] fetches once more and returns the delay it measures then. *)
Theorem get_server_time_delay_single_slot (a : Session) (w : World) :
  answers_code_0 server a ->
  (exists d w1,
     get_delay a w = (Return d, w1) /\
     get_delay a w1 = (Return d, w1) /\
     (fetch_count a w1 <= S (fetch_count a w))%nat) /\
  (forall b d,
     b <> a -> answers_code_0 server b -> delay_cache w = Some (a, d) ->
     exists db w1 response w2,
       get_delay b w = (Return db, w1) /\
       delay_cache w1 = Some (b, db) /\
       server a (fetch_count a w1) = Returned response /\
       get_delay a w1 =
         (Return (timeNano response - int_mul_1e9 (time_at (ticks w1))), w2) /\
       fetch_count a w2 = S (fetch_count a w)).
Proof.
  intros Ha. split.
  - destruct (cached_or_not a w) as [[d Hd]|Hn].
    + exists d, w. rewrite (get_delay_hit _ _ _ Hd). auto.
    + destruct (Ha (fetch_count a w)) as (r & Hs & Hz).
      eexists _, _. rewrite (get_delay_measures _ _ _ Hn Hs Hz).
      split; [reflexivity|]. split.
      * apply get_delay_hit. reflexivity.
      * rewrite fetch_count_cons_eq. lia.
  - intros b d Hne Hb Hc.
    assert (Hn : not_cached b w) by (intros d' H; congruence).
    destruct (Hb (fetch_count b w)) as (rb & Hsb & Hzb).
    pose proof (get_delay_measures _ _ _ Hn Hsb Hzb) as Hgb.
    cbv zeta in Hgb.
    set (db := timeNano rb - int_mul_1e9 (time_at (ticks w))) in *.
    set (w1 := {| delay_cache := Some (b, db); ticks := S (ticks w);
                  fetched := b :: fetched w; output := _ |}) in *.
    assert (Hn1 : not_cached a w1) by (intros d' H; simpl in H; congruence).
    destruct (Ha (fetch_count a w1)) as (ra & Hsa & Hza).
    pose proof (get_delay_measures _ _ _ Hn1 Hsa Hza) as Hga.
    cbv zeta in Hga.
    eexists db, w1, ra, _. repeat split; try eassumption.
    rewrite fetch_count_cons_eq. unfold w1.
    rewrite fetch_count_cons_ne by assumption. reflexivity.
Qed.

(** C3, as the code has it.  [generate_req_timestamp] returns whenever
    nothing but instances of [Exception] come up: with no session the
    local timestamp [int(time.time() * 1000)]; with a session whose delay
    lookup returns [d], the server-adjusted
    [(int(time.time() * 1e9) + d) // 1000000]; with a session whose delay
    lookup raises an instance of [Exception], the local timestamp.  Both
    handlers are [except Exception]: an exception of the fetch that is no
    instance of [Exception] passes them and reaches the caller, and that
    is the only way in which [generate_req_timestamp] raises. *)
Theorem generate_req_timestamp_always_returns
    (session : option Session) (w : World) :
  match session with
  | None =>
      exists w',
        gen_req None w = (Return (int_mul_1000 (time_at (ticks w))), w')
  | Some s =>
      match get_delay s w with
      | (Return d, w1) =>
          exists w',
            gen_req (Some s) w =
              (Return ((int_mul_1e9 (time_at (ticks w1)) + d) / 1000000), w')
      | (Raise e, w1) =>
          if is_Exception e
          then exists w',
                 gen_req (Some s) w =
                   (Return (int_mul_1000 (time_at (ticks w1))), w')
          else gen_req (Some s) w = (Raise e, w1)
      end
  end /\
  (forall e w',
     gen_req session w = (Raise e, w') ->
     is_Exception e = false /\
     exists s, session = Some s /\ server s (fetch_count s w) = Raised e).
Proof.
  destruct session as [s|].
  - destruct (get_delay s w) as [[e|d] w1] eqn:Hd.
    + destruct (is_Exception e) eqn:He.
      * rewrite (gen_req_fallback _ _ _ _ Hd He).
        split; [eauto|discriminate].
      * rewrite (gen_req_escapes _ _ _ _ Hd He).
        split; [reflexivity|]. intros e' w' [= <- _].
        split; [exact He|]. exists s. split; [reflexivity|].
        exact (get_delay_not_Exception _ _ _ _ Hd He).
    + rewrite (gen_req_adjusted _ _ _ _ Hd). split; [eauto|discriminate].
  - rewrite gen_req_no_session. split; [eauto|discriminate].
Qed.

(** C4, as the code has it.  For a session whose fetches raise or answer
    with a non-zero code, in any world a process can be in: when the
    fetch of this call answers with a non-zero code or raises an instance
    of [Exception], [generate_req_timestamp] returns (nothing is raised)
    and its value is the one [generate_timestamp] returns in the same
    world, that is at the same reading of the clock:
    [int(time.time() * 1000)]; when the fetch raises an exception that is
    no instance of [Exception], there is no fallback and that exception
    reaches the caller. *)
Theorem generate_req_timestamp_falls_back (s : Session) (w : World) :
  fetch_fails server s -> reachable_world w ->
  let falls_back :=
    exists timestamp w1 w2,
      gen_req (Some s) w = (Return timestamp, w1) /\
      gen_local w = (Return timestamp, w2) /\
      timestamp = int_mul_1000 (time_at (ticks w)) in
  match server s (fetch_count s w) with
  | Returned _ => falls_back
  | Raised e =>
      if is_Exception e then falls_back
      else exists w1, gen_req (Some s) w = (Raise e, w1)
  end.
Proof.
  intros Hf Hr falls_back.
  pose proof (failing_session_not_cached s w Hf Hr) as Hn.
  pose proof (Hf (fetch_count s w)) as Hk.
  destruct (server s (fetch_count s w)) as [r|e] eqn:Hs.
  - pose proof (get_delay_error_code _ _ _ Hn Hs Hk) as Hg. cbv zeta in Hg.
    unfold falls_back. rewrite (gen_req_fallback _ _ _ _ Hg eq_refl). simpl.
    eexists _, _, _. repeat split.
  - pose proof (get_delay_raised _ _ _ Hn Hs) as Hg.
    destruct (is_Exception e) eqn:He.
    + unfold falls_back. rewrite (gen_req_fallback _ _ _ _ Hg He). simpl.
      eexists _, _, _. repeat split.
    + rewrite (gen_req_escapes _ _ _ _ Hg He). eauto.
Qed.

(** C5.  For a session whose fetches raise or answer with a non-zero
    code, in any world a process can be in, [get_server_time_delay]
    raises: an [Exception] whose message ends with the server's [retMsg]
    when the answer has a non-zero code, the exception of the fetch
    itself when the fetch raised.  The cache slot is left as it was, with
    no delay for the session, and the next call invokes
    [get_server_time()] again. *)
Theorem get_server_time_delay_failure (s : Session) (w : World) :
  fetch_fails server s -> reachable_world w ->
  exists e w1 e' w2,
    get_delay s w = (Raise e, w1) /\
    match server s (fetch_count s w) with
    | Returned response =>
        e = Exception ("Error retrieving Bybit server time: " +:+
                       retMsg response)
    | Raised cause => e = cause
    end /\
    delay_cache w1 = delay_cache w /\ not_cached s w1 /\
    fetched w1 = s :: fetched w /\
    get_delay s w1 = (Raise e', w2) /\
    fetched w2 = s :: s :: fetched w /\
    delay_cache w2 = delay_cache w.
Proof.
  intros Hf Hr.
  pose proof (failing_session_not_cached s w Hf Hr) as Hn.
  assert (Hstep : forall w0, not_cached s w0 ->
            exists e0 w0',
              get_delay s w0 = (Raise e0, w0') /\
              match server s (fetch_count s w0) with
              | Returned response =>
                  e0 = Exception ("Error retrieving Bybit server time: " +:+
                                  retMsg response)
              | Raised cause => e0 = cause
              end /\
              delay_cache w0' = delay_cache w0 /\
              fetched w0' = s :: fetched w0).
  { intros w0 Hn0. pose proof (Hf (fetch_count s w0)) as Hk.
    destruct (server s (fetch_count s w0)) as [r|e0] eqn:Hs.
    - pose proof (get_delay_error_code _ _ _ Hn0 Hs Hk) as Hg.
      cbv zeta in Hg. eexists _, _. split; [exact Hg|]. simpl. auto.
    - pose proof (get_delay_raised _ _ _ Hn0 Hs) as Hg.
      eexists _, _. split; [exact Hg|]. simpl. auto. }
  destruct (Hstep w Hn) as (e & w1 & Hg1 & He & Hc1 & Hl1).
  assert (Hn1 : not_cached s w1) by (intros d H; rewrite Hc1 in H; exact (Hn d H)).
  destruct (Hstep w1 Hn1) as (e' & w2 & Hg2 & _ & Hc2 & Hl2).
  exists e, w1, e', w2. repeat split; try assumption.
  - rewrite Hl2, Hl1. reflexivity.
  - rewrite Hc2. exact Hc1.
Qed.

(** C7, as the code has it.  With the delay [d] cached for the session,
    a call of [generate_req_timestamp] that reads the local time
    [T_nanos = int(time.time() * 1e9)] returns [(T_nanos + d) // 1000000],
    without fetching.  [//] rounds down: it is truncation when the sum
    is not negative, and one less than the truncated quotient when the
    sum is negative and no whole number of milliseconds. *)
Theorem generate_req_timestamp_adjusted
    (s : Session) (d : Z) (w : World) :
  delay_cache w = Some (s, d) ->
  let T_nanos := int_mul_1e9 (time_at (ticks w)) in
  exists w',
    gen_req (Some s) w = (Return ((T_nanos + d) / 1000000), w') /\
    fetched w' = fetched w /\ delay_cache w' = Some (s, d) /\
    (0 <= T_nanos + d ->
     (T_nanos + d) / 1000000 = Z.quot (T_nanos + d) 1000000) /\
    (T_nanos + d < 0 -> (T_nanos + d) mod 1000000 <> 0 ->
     (T_nanos + d) / 1000000 = Z.quot (T_nanos + d) 1000000 - 1).
Proof.
  intros Hc T_nanos.
  rewrite (gen_req_adjusted _ _ _ _ (get_delay_hit _ _ _ Hc)).
  eexists. split; [reflexivity|]. simpl. repeat split; try assumption.
  - intros Hnn. symmetry. apply Z.quot_div_nonneg; lia.
  - intros Hneg Hrem. apply floor_below_truncation; assumption.
Qed.

End Run.

(** ** The claims on the concrete run *)

Local Abbreviation example_get_delay :=
  (get_server_time_delay example_int_mul_1e9 example_time_at example_server).
Local Abbreviation example_gen_req :=
  (generate_req_timestamp example_int_mul_1e9 example_int_mul_1000
     example_time_at example_server).
Local Abbreviation example_reachable :=
  (reachable example_int_mul_1e9 example_int_mul_1000
     example_time_at example_server).

Lemma example_answers_code_0 (s : Session) :
  (s < 2)%nat -> answers_code_0 example_server s.
Proof.
  intros Hs k. destruct s as [|[|s]]; [| |lia];
    (eexists; split; reflexivity).
Defined.

Lemma example_fetch_fails (s : Session) :
  (2 <= s)%nat -> fetch_fails example_server s.
Proof.
  intros Hs k. destruct s as [|[|[|[|s]]]]; [lia|lia| | |]; simpl.
  - discriminate.
  - exact I.
  - exact I.
Defined.

(** The world after session 0 measured its delay: the server time
    1_700_000_000_500_000_000 against the local time
    1_700_000_000_000_000_000 gives 500_000_000. *)
Example example_delay_measured :
  example_get_delay 0%nat initial_world =
    (Return 500000000,
     {| delay_cache := Some (0%nat, 500000000); ticks := 1;
        fetched := [0%nat];
        output := [LogInfo "Calculated delay: 500000000 nanoseconds"] |}).
Proof. reflexivity. Qed.

Lemma get_server_time_delay_single_slot_witness :
  answers_code_0 example_server 0%nat /\
  exists d w1,
    example_get_delay 0%nat initial_world = (Return d, w1) /\
    example_get_delay 0%nat w1 = (Return d, w1) /\
    (fetch_count 0%nat w1 <= S (fetch_count 0%nat initial_world))%nat.
Proof.
  assert (H : answers_code_0 example_server 0%nat)
    by (apply example_answers_code_0; lia).
  split; [exact H|].
  exact (proj1 (get_server_time_delay_single_slot
                  example_int_mul_1e9 example_time_at example_server
                  0%nat initial_world H)).
Defined.

(** C1 as stated fails.  Sessions 0 and 1 both answer with code 0; the
    calls go 0, 1, 0.  The third call invokes [get_server_time()] of
    session 0 a second time, and returns another delay than the first
    call did. *)
Lemma get_server_time_delay_interleaved_refetches :
  answers_code_0 example_server 0%nat /\
  answers_code_0 example_server 1%nat /\
  let '(r1, w1) := example_get_delay 0%nat initial_world in
  let '(r2, w2) := example_get_delay 1%nat w1 in
  let '(r3, w3) := example_get_delay 0%nat w2 in
  r1 = Return 500000000 /\ r3 = Return (-1500000000) /\ r3 <> r1 /\
  fetch_count 0%nat w3 = 2%nat /\ ~ (fetch_count 0%nat w3 <= 1)%nat.
Proof.
  split; [apply example_answers_code_0; lia|].
  split; [apply example_answers_code_0; lia|].
  vm_compute. repeat split; try discriminate. lia.
Qed.

Lemma generate_req_timestamp_falls_back_witness :
  let w := snd (example_get_delay 0%nat initial_world) in
  fetch_fails example_server 3%nat /\ example_reachable w /\
  exists timestamp w1 w2,
    example_gen_req (Some 3%nat) w = (Return timestamp, w1) /\
    generate_timestamp example_int_mul_1000 example_time_at w
      = (Return timestamp, w2) /\
    timestamp = example_int_mul_1000 (example_time_at (ticks w)).
Proof.
  intros w.
  assert (Hf : fetch_fails example_server 3%nat)
    by (apply example_fetch_fails; lia).
  assert (Hr : example_reachable w)
    by (apply (reachable_call _ _ _ _ (CallGetServerTimeDelay 0%nat));
        apply reachable_initial).
  split; [exact Hf|]. split; [exact Hr|].
  exact (generate_req_timestamp_falls_back
           example_int_mul_1e9 example_int_mul_1000 example_time_at
           example_server 3%nat w Hf Hr).
Defined.

(** C3 as stated fails.  Session 4 is interrupted from the keyboard
    while it fetches: [generate_req_timestamp] returns no timestamp, the
    [KeyboardInterrupt] passes both [except Exception] clauses and
    reaches the caller. *)
Lemma generate_req_timestamp_interrupted :
  example_server 4%nat 0%nat = Raised KeyboardInterrupt /\
  example_gen_req (Some 4%nat) initial_world =
    (Raise KeyboardInterrupt,
     {| delay_cache := None; ticks := 0; fetched := [4%nat];
        output := [] |}) /\
  ~ (exists timestamp w',
       example_gen_req (Some 4%nat) initial_world = (Return timestamp, w')).
Proof.
  split; [reflexivity|]. split; [reflexivity|].
  intros (timestamp & w' & H). discriminate H.
Qed.

(** C4 as stated fails.  The fetches of session 5 raise, in a world a
    process can be in, and [generate_req_timestamp] does not return the
    local timestamp that [generate_timestamp] returns there: the
    [KeyboardInterrupt] of the fetch escapes. *)
Lemma generate_req_timestamp_no_fallback :
  let w := snd (example_get_delay 0%nat initial_world) in
  fetch_fails example_server 5%nat /\ example_reachable w /\
  (generate_timestamp example_int_mul_1000 example_time_at w).1
    = Return 1700000001000 /\
  (example_gen_req (Some 5%nat) w).1 = Raise KeyboardInterrupt /\
  ~ (exists timestamp w1,
       example_gen_req (Some 5%nat) w = (Return timestamp, w1)).
Proof.
  intros w. split; [apply example_fetch_fails; lia|]. split.
  - apply (reachable_call _ _ _ _ (CallGetServerTimeDelay 0%nat)).
    apply reachable_initial.
  - split; [reflexivity|]. split; [reflexivity|].
    intros (timestamp & w1 & H). discriminate H.
Qed.

Lemma get_server_time_delay_failure_witness :
  fetch_fails example_server 3%nat /\ example_reachable initial_world /\
  exists e w1 e' w2,
    example_get_delay 3%nat initial_world = (Raise e, w1) /\
    match example_server 3%nat (fetch_count 3%nat initial_world) with
    | Returned response =>
        e = Exception ("Error retrieving Bybit server time: " +:+
                       retMsg response)
    | Raised cause => e = cause
    end /\
    delay_cache w1 = delay_cache initial_world /\ not_cached 3%nat w1 /\
    fetched w1 = 3%nat :: fetched initial_world /\
    example_get_delay 3%nat w1 = (Raise e', w2) /\
    fetched w2 = 3%nat :: 3%nat :: fetched initial_world /\
    delay_cache w2 = delay_cache initial_world.
Proof.
  assert (Hf : fetch_fails example_server 3%nat)
    by (apply example_fetch_fails; lia).
  split; [exact Hf|]. split; [apply reachable_initial|].
  exact (get_server_time_delay_failure
           example_int_mul_1e9 example_int_mul_1000 example_time_at
           example_server 3%nat initial_world Hf
           (reachable_initial _ _ _ _)).
Defined.

Lemma generate_req_timestamp_adjusted_witness :
  let w := snd (example_get_delay 0%nat initial_world) in
  delay_cache w = Some (0%nat, 500000000) /\
  exists w',
    example_gen_req (Some 0%nat) w
      = (Return ((1700000001000000000 + 500000000) / 1000000), w') /\
    fetched w' = fetched w /\ delay_cache w' = Some (0%nat, 500000000) /\
    (0 <= 1700000001000000000 + 500000000 ->
     (1700000001000000000 + 500000000) / 1000000
     = Z.quot (1700000001000000000 + 500000000) 1000000) /\
    (1700000001000000000 + 500000000 < 0 ->
     (1700000001000000000 + 500000000) mod 1000000 <> 0 ->
     (1700000001000000000 + 500000000) / 1000000
     = Z.quot (1700000001000000000 + 500000000) 1000000 - 1).
Proof.
  intros w.
  assert (Hc : delay_cache w = Some (0%nat, 500000000)) by reflexivity.
  split; [exact Hc|].
  exact (generate_req_timestamp_adjusted
           example_int_mul_1e9 example_int_mul_1000 example_time_at
           example_server 0%nat 500000000 w Hc).
Defined.

(** C7 as stated fails.  The server answers with the time -1 while the
    local clock reads 1_700_000_000 s, twice: the delay cached for
    session 0 is -1_700_000_000_000_000_001, the sum is -1, and
    [generate_req_timestamp] returns -1 where truncating division
    gives 0. *)
Lemma generate_req_timestamp_rounds_down :
  let w := snd (get_server_time_delay example_int_mul_1e9
                  example_still_time_at example_early_server
                  0%nat initial_world) in
  let d := -1700000000000000001 in
  let T_nanos := example_int_mul_1e9 (example_still_time_at (ticks w)) in
  reachable example_int_mul_1e9 example_int_mul_1000 example_still_time_at
    example_early_server w /\
  delay_cache w = Some (0%nat, d) /\
  T_nanos + d = -1 /\
  (generate_req_timestamp example_int_mul_1e9 example_int_mul_1000
     example_still_time_at example_early_server (Some 0%nat) w).1
    = Return (-1) /\
  Z.quot (T_nanos + d) 1000000 = 0 /\
  (generate_req_timestamp example_int_mul_1e9 example_int_mul_1000
     example_still_time_at example_early_server (Some 0%nat) w).1
    <> Return (Z.quot (T_nanos + d) 1000000).
Proof.
  intros w d T_nanos. split.
  - apply (reachable_call _ _ _ _ (CallGetServerTimeDelay 0%nat)).
    apply reachable_initial.
  - split; [reflexivity|]. split; [reflexivity|]. split; [reflexivity|].
    split; [reflexivity|]. discriminate.
Qed.

End ClockSyncProofs.

(** * Properties of runs of ClockSync calls *)
Module ClockSyncRunsProofs.
Import ClockSync ClockSyncRuns ClockSyncProofs.
Local Open Scope list_scope.

Section Run.

Context {float : Type}.
Variables (int_mul_1e9 int_mul_1000 : float -> Z).
Variables (time_at : nat -> float) (server : Session -> nat -> fetch_outcome).

Local Abbreviation get_delay := (get_server_time_delay int_mul_1e9 time_at server).
Local Abbreviation gen_req :=
  (generate_req_timestamp int_mul_1e9 int_mul_1000 time_at server).
Local Abbreviation step := (after_call int_mul_1e9 int_mul_1000 time_at server).
Local Abbreviation run := (after_calls int_mul_1e9 int_mul_1000 time_at server).

(** What one call of [get_server_time_delay] does to the world: nothing
    on a hit; one fetch, one clock reading and a new slot when it
    measures; one fetch and nothing else (but output) when it fails. *)
Inductive delay_call (s : Session) (w : World) : result Z -> World -> Prop :=
| delay_hit d :
    delay_cache w = Some (s, d) -> delay_call s w (Return d) w
| delay_measured response w' :
    not_cached s w ->
    server s (fetch_count s w) = Returned response ->
    retCode response = 0 ->
    delay_cache w' =
      Some (s, timeNano response - int_mul_1e9 (time_at (ticks w))) ->
    ticks w' = S (ticks w) -> fetched w' = s :: fetched w ->
    delay_call s w
      (Return (timeNano response - int_mul_1e9 (time_at (ticks w)))) w'
| delay_failed e w' :
    not_cached s w ->
    next_fetch_fails server s w ->
    delay_cache w' = delay_cache w ->
    ticks w' = ticks w -> fetched w' = s :: fetched w ->
    delay_call s w (Raise e) w'.

Lemma get_delay_call s w :
  delay_call s w (get_delay s w).1 (get_delay s w).2.
Proof.
  destruct (cached_or_not s w) as [[d Hd]|Hn].
  - rewrite (get_delay_hit _ _ _ _ _ _ Hd). apply delay_hit, Hd.
  - destruct (server s (fetch_count s w)) as [r|e] eqn:Hs.
    + destruct (Z.eq_dec (retCode r) 0) as [Hz|Hz].
      * rewrite (get_delay_measures _ _ _ _ _ _ Hn Hs Hz).
        eapply delay_measured; eauto.
      * rewrite (get_delay_error_code _ _ _ _ _ _ Hn Hs Hz).
        apply delay_failed; auto. unfold next_fetch_fails. rewrite Hs. exact Hz.
    + rewrite (get_delay_raised _ _ _ _ _ _ Hn Hs).
      apply delay_failed; auto. unfold next_fetch_fails. rewrite Hs. exact I.
Qed.

(** The world after a call, by the fields that matter: either the cache
    slot and the fetch log are those of [w], or they are those that the
    call of [get_server_time_delay] of some session left; the clock only
    advances. *)
Lemma step_fields c w :
  (delay_cache (step c w) = delay_cache w /\ fetched (step c w) = fetched w /\
   (ticks w <= ticks (step c w))%nat) \/
  (exists s r w',
     delay_call s w r w' /\
     delay_cache (step c w) = delay_cache w' /\
     fetched (step c w) = fetched w' /\
     (ticks w' <= ticks (step c w))%nat).
Proof.
  destruct c as [s|[s|]|]; cbn [after_call].
  - right. exists s, (get_delay s w).1, (get_delay s w).2.
    split; [apply get_delay_call|auto].
  - right. exists s, (get_delay s w).1, (get_delay s w).2.
    split; [apply get_delay_call|].
    destruct (get_delay s w) as [[e|d] w1] eqn:Hd.
    + destruct (is_Exception e) eqn:He.
      * rewrite (gen_req_fallback _ _ _ _ _ _ _ _ Hd He). simpl. auto.
      * rewrite (gen_req_escapes _ _ _ _ _ _ _ _ Hd He). simpl. auto.
    + rewrite (gen_req_adjusted _ _ _ _ _ _ _ _ Hd). simpl. auto.
  - left. rewrite gen_req_no_session. simpl. auto.
  - left. simpl. auto.
Qed.

Lemma fetch_count_fetched s w w' :
  fetched w' = fetched w -> fetch_count s w' = fetch_count s w.
Proof. unfold fetch_count. intros ->. reflexivity. Qed.

Lemma fetch_count_fetched_cons s s' w w' :
  fetched w' = s' :: fetched w ->
  (fetch_count s w <= fetch_count s w')%nat /\
  fetch_count s' w' = S (fetch_count s' w).
Proof.
  unfold fetch_count. intros ->. simpl. split.
  - destruct (Nat.eq_dec s' s); lia.
  - destruct (Nat.eq_dec s' s'); congruence.
Qed.

Lemma slot_origin_kept w w' :
  delay_cache w' = delay_cache w ->
  (forall s, (fetch_count s w <= fetch_count s w')%nat) ->
  (ticks w <= ticks w')%nat ->
  slot_origin int_mul_1e9 time_at server w ->
  slot_origin int_mul_1e9 time_at server w'.
Proof.
  intros Hc Hf Ht Ho s d Hs. rewrite Hc in Hs.
  destruct (Ho s d Hs) as (k & r & t & Hk & Htk & Hr & Hz & Hd).
  exists k, r, t. specialize (Hf s). repeat split; try assumption; lia.
Qed.

Lemma delay_call_keeps_origin s w r w' :
  delay_call s w r w' ->
  slot_origin int_mul_1e9 time_at server w ->
  slot_origin int_mul_1e9 time_at server w'.
Proof.
  intros Hcall Ho. destruct Hcall as [d Hd|resp w' Hn Hs Hz Hc Ht Hf|e w' Hn _ Hc Ht Hf].
  - exact Ho.
  - intros s' d' Hs'. rewrite Hc in Hs'. injection Hs' as <- <-.
    exists (fetch_count s w), resp, (ticks w).
    destruct (fetch_count_fetched_cons s s w w' Hf) as [_ ->].
    rewrite Ht. repeat split; auto.
  - apply (slot_origin_kept w); [exact Hc| |lia|exact Ho].
    intros s'. apply (fetch_count_fetched_cons s' s w w' Hf).
Qed.

(** X1.  In every world a process can be in, the delay in the cache slot
    is the server time of a code-0 answer that its session gave to one of
    the fetches made so far, minus a local time read so far. *)
Theorem cached_delay_origin (w : World) :
  reachable int_mul_1e9 int_mul_1000 time_at server w ->
  slot_origin int_mul_1e9 time_at server w.
Proof.
  induction 1 as [|c w Hr IH].
  - intros s d H. discriminate H.
  - destruct (step_fields c w) as [(Hc & Hf & Ht)|(s & r & w' & Hcall & Hc & Hf & Ht)].
    + apply (slot_origin_kept w); [exact Hc| |exact Ht|exact IH].
      intros s. rewrite (fetch_count_fetched s _ _ Hf). lia.
    + apply (slot_origin_kept w'); [exact Hc| |exact Ht|].
      * intros s'. rewrite (fetch_count_fetched s' _ _ Hf). lia.
      * exact (delay_call_keeps_origin _ _ _ _ Hcall IH).
Qed.

(** X2.  A call of [get_server_time_delay] whose fetch fails stores
    nothing, so it does not take the slot from the session that has it:
    with the delay [d] cached for [a], a failing call for another session
    [b] raises, and the next call for [a] still returns [d] without
    fetching. *)
Theorem failed_call_keeps_slot (a b : Session) (d : Z) (w : World) :
  delay_cache w = Some (a, d) -> b <> a ->
  next_fetch_fails server b w ->
  exists e w1,
    get_delay b w = (Raise e, w1) /\
    delay_cache w1 = Some (a, d) /\
    get_delay a w1 = (Return d, w1) /\
    fetch_count a w1 = fetch_count a w.
Proof.
  intros Hc Hne Hfail.
  pose proof (get_delay_call b w) as Hcall.
  destruct (get_delay b w) as [r w1]. simpl in Hcall.
  destruct Hcall as [d' Hd|resp w1 _ Hs Hz _ _ _|e w1 _ _ Hc1 _ Hf].
  - congruence.
  - unfold next_fetch_fails in Hfail. rewrite Hs in Hfail. contradiction.
  - exists e, w1. rewrite Hc1. split; [reflexivity|]. split; [exact Hc|].
    split.
    + apply get_delay_hit. rewrite Hc1. exact Hc.
    + unfold fetch_count. rewrite Hf. simpl.
      destruct (Nat.eq_dec b a); congruence.
Qed.

(** X3.  The first [generate_req_timestamp] for a session that is not in
    the slot and answers with code 0 fetches once, reads the clock twice
    and returns the server time of the answer plus the local time that
    passed between the two readings, in milliseconds rounded down. *)
Theorem first_timestamp_is_server_time_plus_elapsed
    (s : Session) (w : World) (response : Response) :
  not_cached s w ->
  server s (fetch_count s w) = Returned response ->
  retCode response = 0 ->
  let elapsed := int_mul_1e9 (time_at (S (ticks w)))
                 - int_mul_1e9 (time_at (ticks w)) in
  exists w',
    gen_req (Some s) w
      = (Return ((timeNano response + elapsed) / 1000000), w') /\
    ticks w' = S (S (ticks w)) /\ fetched w' = s :: fetched w /\
    delay_cache w' =
      Some (s, timeNano response - int_mul_1e9 (time_at (ticks w))).
Proof.
  intros Hn Hs Hz elapsed.
  pose proof (get_delay_measures int_mul_1e9 time_at server _ _ _ Hn Hs Hz)
    as Hg.
  cbv zeta in Hg.
  rewrite (gen_req_adjusted _ int_mul_1000 _ _ _ _ _ _ Hg). simpl.
  replace (timeNano response + elapsed)
    with (int_mul_1e9 (time_at (S (ticks w))) +
          (timeNano response - int_mul_1e9 (time_at (ticks w))))
    by (unfold elapsed; lia).
  eexists. split; [reflexivity|auto].
Qed.

(** X4.  A call fetches at most once: after any sequence of calls the
    fetch log is the one before with at most one entry added per call. *)
Theorem at_most_one_fetch_per_call (calls : list call) (w : World) :
  exists added,
    fetched (run calls w) = added ++ fetched w /\
    (length added <= length calls)%nat.
Proof.
  revert w. induction calls as [|c calls IH]; intros w; simpl.
  - exists []. auto.
  - destruct (IH (step c w)) as (added & Hf & Hl). rewrite Hf.
    destruct (step_fields c w) as [(_ & Hs & _)|(s & r & w' & Hcall & _ & Hs & _)].
    + exists added. rewrite Hs. split; [reflexivity|lia].
    + rewrite Hs. destruct Hcall as [d Hd|resp w' _ _ _ _ _ Hw'|e w' _ _ _ _ Hw'].
      * exists added. split; [reflexivity|lia].
      * exists (added ++ [s]). rewrite Hw', <- app_assoc, length_app.
        split; [reflexivity|simpl; lia].
      * exists (added ++ [s]). rewrite Hw', <- app_assoc, length_app.
        split; [reflexivity|simpl; lia].
Qed.

(** X5.  Once a delay is cached for a session, calls that pass no other
    session never fetch again and never change the slot, however many
    they are. *)
Theorem same_session_never_refetches
    (s : Session) (d : Z) (calls : list call) (w : World) :
  delay_cache w = Some (s, d) ->
  Forall (uses_only s) calls ->
  delay_cache (run calls w) = Some (s, d) /\
  fetched (run calls w) = fetched w.
Proof.
  intros Hc Hall. revert w Hc.
  induction Hall as [|c calls Hu _ IH]; intros w Hc; simpl; [auto|].
  assert (Hstep : delay_cache (step c w) = Some (s, d) /\
                  fetched (step c w) = fetched w).
  { destruct c as [s'|[s'|]|]; cbn [after_call]; simpl in Hu; subst.
    - rewrite (get_delay_hit _ _ _ _ _ _ Hc). auto.
    - rewrite (gen_req_adjusted _ _ _ _ _ _ _ _
                 (get_delay_hit _ _ _ _ _ _ Hc)). auto.
    - rewrite gen_req_no_session. auto.
    - auto. }
  destruct Hstep as [Hc' Hf']. destruct (IH _ Hc') as [Hc'' Hf''].
  split; [exact Hc''|]. rewrite Hf''. exact Hf'.
Qed.

End Run.

(** ** On the concrete run *)

Local Abbreviation example_world :=
  (get_server_time_delay example_int_mul_1e9 example_time_at example_server
     0%nat initial_world).2.

Lemma cached_delay_origin_witness :
  reachable example_int_mul_1e9 example_int_mul_1000 example_time_at
    example_server example_world /\
  slot_origin example_int_mul_1e9 example_time_at example_server
    example_world.
Proof.
  assert (Hr : reachable example_int_mul_1e9 example_int_mul_1000
                 example_time_at example_server example_world)
    by (apply (reachable_call _ _ _ _ (CallGetServerTimeDelay 0%nat));
        apply reachable_initial).
  split; [exact Hr|].
  exact (cached_delay_origin _ _ _ _ _ Hr).
Defined.

Lemma failed_call_keeps_slot_witness :
  delay_cache example_world = Some (0%nat, 500000000) /\ 2%nat <> 0%nat /\
  next_fetch_fails example_server 2%nat example_world /\
  exists e w1,
    get_server_time_delay example_int_mul_1e9 example_time_at example_server
      2%nat example_world = (Raise e, w1) /\
    delay_cache w1 = Some (0%nat, 500000000) /\
    get_server_time_delay example_int_mul_1e9 example_time_at example_server
      0%nat w1 = (Return 500000000, w1) /\
    fetch_count 0%nat w1 = fetch_count 0%nat example_world.
Proof.
  assert (Hc : delay_cache example_world = Some (0%nat, 500000000))
    by reflexivity.
  assert (Hne : 2%nat <> 0%nat) by discriminate.
  assert (Hf : next_fetch_fails example_server 2%nat example_world)
    by (unfold next_fetch_fails; simpl; discriminate).
  split; [exact Hc|]. split; [exact Hne|]. split; [exact Hf|].
  exact (failed_call_keeps_slot example_int_mul_1e9 example_time_at
           example_server 0%nat 2%nat 500000000 example_world Hc Hne Hf).
Defined.

Lemma first_timestamp_is_server_time_plus_elapsed_witness :
  not_cached 0%nat initial_world /\
  example_server 0%nat (fetch_count 0%nat initial_world)
    = Returned (mkResponse 0 "OK" 1700000000500000000) /\
  exists w',
    generate_req_timestamp example_int_mul_1e9 example_int_mul_1000
      example_time_at example_server (Some 0%nat) initial_world
      = (Return ((1700000000500000000 + 1000000000) / 1000000), w') /\
    ticks w' = 2%nat /\ fetched w' = [0%nat] /\
    delay_cache w' = Some (0%nat, 500000000).
Proof.
  assert (Hn : not_cached 0%nat initial_world)
    by (intros d H; discriminate H).
  assert (Hs : example_server 0%nat (fetch_count 0%nat initial_world)
               = Returned (mkResponse 0 "OK" 1700000000500000000))
    by reflexivity.
  split; [exact Hn|]. split; [exact Hs|].
  exact (first_timestamp_is_server_time_plus_elapsed
           example_int_mul_1e9 example_int_mul_1000 example_time_at
           example_server 0%nat initial_world _ Hn Hs eq_refl).
Defined.

Lemma same_session_never_refetches_witness :
  let calls := [CallGenerateReqTimestamp (Some 0%nat);
                CallGetServerTimeDelay 0%nat; CallGenerateTimestamp;
                CallGenerateReqTimestamp None] in
  delay_cache example_world = Some (0%nat, 500000000) /\
  Forall (uses_only 0%nat) calls /\
  delay_cache
    (after_calls example_int_mul_1e9 example_int_mul_1000 example_time_at
       example_server calls example_world) = Some (0%nat, 500000000) /\
  fetched
    (after_calls example_int_mul_1e9 example_int_mul_1000 example_time_at
       example_server calls example_world) = fetched example_world.
Proof.
  intros calls.
  assert (Hc : delay_cache example_world = Some (0%nat, 500000000))
    by reflexivity.
  assert (Hu : Forall (uses_only 0%nat) calls)
    by (repeat constructor).
  split; [exact Hc|]. split; [exact Hu|].
  exact (same_session_never_refetches example_int_mul_1e9
           example_int_mul_1000 example_time_at example_server
           0%nat 500000000 calls example_world Hc Hu).
Defined.

End ClockSyncRunsProofs.

(** * More properties of EndpointRouter *)
Module EndpointRouterMore.
Import EndpointRouter EndpointRouterProofs.
Local Open Scope list_scope.

Lemma leading_after_leading cls s :
  leading cls s +:+ after_leading cls s = s.
Proof.
  induction s as [|c s IH]; simpl; [reflexivity|].
  destruct (cls c); [|reflexivity].
  change (String c (leading cls s +:+ after_leading cls s) = String c s).
  f_equal. exact IH.
Qed.

Lemma all_chars_leading cls s : all_chars cls (leading cls s) = true.
Proof.
  induction s as [|c s IH]; simpl; [reflexivity|].
  destruct (cls c) eqn:Hc; simpl; [rewrite Hc; exact IH|reflexivity].
Qed.

Lemma no_host_after_leading s :
  no_host (after_leading not_slash_or_space s) = true.
Proof.
  induction s as [|c s IH]; simpl; [reflexivity|].
  destruct (not_slash_or_space c) eqn:Hc; [exact IH|].
  simpl. rewrite Hc. reflexivity.
Qed.

Lemma leading_all cls s : all_chars cls s = true -> leading cls s = s.
Proof.
  induction s as [|c s IH]; simpl; [reflexivity|].
  intros H. apply andb_true_iff in H as [-> H]. rewrite (IH H). reflexivity.
Qed.

Lemma all_chars_app cls s t :
  all_chars cls (s +:+ t) = all_chars cls s && all_chars cls t.
Proof.
  induction s as [|c s IH]; simpl; [reflexivity|].
  rewrite IH, andb_assoc. reflexivity.
Qed.

Lemma string_length_app s t :
  String.length (s +:+ t) = (String.length s + String.length t)%nat.
Proof.
  induction s as [|c s IH]; [reflexivity|].
  change (S (String.length (s +:+ t))
          = (S (String.length s) + String.length t)%nat).
  rewrite IH. reflexivity.
Qed.

Lemma strip_prefix_app p s rest :
  strip_prefix p s = Some rest -> s = p +:+ rest /\ consumed s rest = p.
Proof.
  revert s. induction p as [|a p IH]; intros s; simpl.
  - intros [= ->]. split; [reflexivity|]. unfold consumed.
    rewrite Nat.sub_diag. destruct rest; reflexivity.
  - destruct s as [|b s]; [discriminate|].
    destruct (Ascii.eqb a b) eqn:E; [|discriminate].
    apply Ascii.eqb_eq in E. subst b. intros Hs.
    destruct (IH _ Hs) as [-> Hc]. split; [reflexivity|].
    unfold consumed in *.
    change (String.length (String a (p +:+ rest)))
      with (S (String.length (p +:+ rest))).
    rewrite string_length_app in *.
    replace (S (String.length p + String.length rest) - String.length rest)%nat
      with (S (String.length p + String.length rest - String.length rest))
      by lia.
    change (String a (substring 0
              (String.length p + String.length rest - String.length rest)
              (p +:+ rest)) = String a p).
    rewrite Hc. reflexivity.
Qed.

Lemma host_and_path_Some s host p :
  host_and_path s = Some (host, p) ->
  exists rest, s = host +:+ rest /\ p = leading dot rest /\
               is_host host = true /\ no_host rest = true.
Proof.
  unfold host_and_path. destruct (no_host s) eqn:Hn; [discriminate|].
  intros [= <- <-]. exists (after_leading not_slash_or_space s).
  split; [symmetry; apply leading_after_leading|]. split; [reflexivity|].
  split; [|apply no_host_after_leading].
  unfold is_host. rewrite all_chars_leading, andb_true_r.
  destruct s as [|c s]; [discriminate Hn|]. simpl in *.
  apply negb_false_iff in Hn. rewrite Hn. simpl. rewrite Hn. reflexivity.
Qed.

(** What a match object of the pattern holds. *)
Lemma re_match_path_parts url m :
  re_match path url = Some m ->
  exists scheme host rest,
    url = scheme +:+ host +:+ rest /\
    (scheme = "wss://" /\ m !! 1%nat = Some "wss://" \/
     scheme = "" /\ m !! 1%nat = None) /\
    m !! 2%nat = Some host /\ m !! 3%nat = Some (leading dot rest) /\
    is_host host = true /\ no_host rest = true.
Proof.
  unfold re_match, path. cbn [exec].
  pose proof (exec_host_path url ∅) as Hu. cbn [exec] in Hu.
  assert (Hplain :
    match host_and_path url with
    | Some (host, p) => Some (<[3%nat:=p]> (<[2%nat:=host]> (∅ : captures)))
    | None => None
    end = Some m ->
    exists scheme host rest,
      url = scheme +:+ host +:+ rest /\
      (scheme = "wss://" /\ m !! 1%nat = Some "wss://" \/
       scheme = "" /\ m !! 1%nat = None) /\
      m !! 2%nat = Some host /\ m !! 3%nat = Some (leading dot rest) /\
      is_host host = true /\ no_host rest = true).
  { destruct (host_and_path url) as [[host p]|] eqn:Hhp; [|discriminate].
    intros [= <-].
    destruct (host_and_path_Some _ _ _ Hhp) as (rest & -> & -> & Hh & Hr).
    exists "", host, rest. split; [reflexivity|].
    split; [right; split; [reflexivity|]|].
    - rewrite !lookup_insert_ne by discriminate. reflexivity.
    - rewrite lookup_insert_ne by discriminate.
      rewrite !lookup_insert_eq. auto. }
  destruct (strip_prefix "wss://" url) as [after|] eqn:Hs.
  - pose proof (exec_host_path after (<[1%nat := consumed url after]> ∅)) as Ha.
    cbn [exec] in Ha. rewrite Ha.
    destruct (host_and_path after) as [[host p]|] eqn:Hhp.
    + intros [= <-].
      destruct (host_and_path_Some _ _ _ Hhp) as (rest & -> & -> & Hh & Hr).
      destruct (strip_prefix_app _ _ _ Hs) as [-> Hc].
      exists "wss://", host, rest. split; [reflexivity|].
      split; [left; split; [reflexivity|]|].
      * rewrite !lookup_insert_ne by discriminate.
        rewrite lookup_insert_eq, Hc. reflexivity.
      * rewrite lookup_insert_ne by discriminate.
        rewrite !lookup_insert_eq. auto.
    + rewrite Hu. exact Hplain.
  - rewrite Hu. exact Hplain.
Qed.

(** X6.  A match object of the pattern cuts the URL in three: the first
    group is [wss://] or took no part, the second is a host (not empty,
    no slash, no whitespace), what follows neither starts with a host
    character, and the third group is the first line of it.  For a URL
    with no line feed the groups put together give the URL back. *)
Theorem path_match_round_trip (url : string) (m : captures) :
  re_match path url = Some m ->
  exists host rest,
    m !! 2%nat = Some host /\ is_host host = true /\
    no_host rest = true /\ m !! 3%nat = Some (leading dot rest) /\
    url = default "" (m !! 1%nat) +:+ host +:+ rest /\
    (m !! 1%nat = Some "wss://" \/ m !! 1%nat = None) /\
    (all_chars dot url = true ->
     url = default "" (m !! 1%nat) +:+ host +:+ default "" (m !! 3%nat)).
Proof.
  intros Hm.
  destruct (re_match_path_parts _ _ Hm)
    as (scheme & host & rest & Hurl & Hscheme & H2 & H3 & Hh & Hr).
  exists host, rest.
  assert (Hd : default "" (m !! 1%nat) = scheme)
    by (destruct Hscheme as [[-> ->]|[-> ->]]; reflexivity).
  rewrite Hd, H3. repeat split; try assumption.
  - destruct Hscheme as [[_ ->]|[_ ->]]; auto.
  - intros Hall. simpl. rewrite Hurl in Hall.
    rewrite !all_chars_app in Hall.
    apply andb_true_iff in Hall as [_ Hall].
    apply andb_true_iff in Hall as [_ Hall].
    rewrite (leading_all _ _ Hall). exact Hurl.
Qed.

Lemma path_match_round_trip_witness :
  let url := "wss://stream.bybit.com/v5/public/spot" in
  let m : captures :=
    <[3%nat := "/v5/public/spot"]>
      (<[2%nat := "stream.bybit.com"]> (<[1%nat := "wss://"]> ∅)) in
  re_match path url = Some m /\
  exists host rest,
    m !! 2%nat = Some host /\ is_host host = true /\
    no_host rest = true /\ m !! 3%nat = Some (leading dot rest) /\
    url = default "" (m !! 1%nat) +:+ host +:+ rest /\
    (m !! 1%nat = Some "wss://" \/ m !! 1%nat = None) /\
    (all_chars dot url = true ->
     url = default "" (m !! 1%nat) +:+ host +:+ default "" (m !! 3%nat)).
Proof.
  intros url m.
  assert (Hm : re_match path url = Some m) by (vm_compute; reflexivity).
  split; [exact Hm|].
  exact (path_match_round_trip url m Hm).
Defined.

Lemma path_group_3_Raise url e :
  path_group_3 url = Raise e -> e = no_match_object /\ no_host url = true.
Proof.
  unfold path_group_3. destruct (re_match path url) eqn:Hm; [discriminate|].
  intros [= <-]. split; [reflexivity|]. apply re_match_path_None, Hm.
Qed.

(** X7.  What each outcome of [identify_ws_method] tells.  A handler: it
    is bound in the table, to the first key with the path component of
    the target.  [None]: the target and all keys are matched, no key with
    the path component of the target.  An exception: it is the
    [AttributeError] of the missing match object, and the target has no
    host, or the first key that is not matched with another path
    component has none. *)
Theorem identify_ws_method_outcomes {H} (target : string)
    (table : dict_items H) :
  match identify_ws_method target table with
  | Return (Some handler) =>
      exists p key before after,
        table = before ++ (key, handler) :: after /\
        path_group_3 target = Return p /\ path_group_3 key = Return p /\
        Forall (other_path p) before
  | Return None =>
      exists p, path_group_3 target = Return p /\ Forall (other_path p) table
  | Raise e =>
      e = no_match_object /\
      (no_host target = true \/
       exists p key handler before after,
         table = before ++ (key, handler) :: after /\
         path_group_3 target = Return p /\ no_host key = true /\
         Forall (other_path p) before)
  end.
Proof.
  unfold identify_ws_method.
  destruct (path_group_3 target) as [e|p] eqn:Ht.
  { destruct (path_group_3_Raise _ _ Ht) as [-> Hn]. auto. }
  assert (Hloop : forall items : dict_items H,
    match identify_ws_method_loop p items with
    | Return (Some handler) =>
        exists key before after,
          items = before ++ (key, handler) :: after /\
          path_group_3 key = Return p /\ Forall (other_path p) before
    | Return None => Forall (other_path p) items
    | Raise e =>
        e = no_match_object /\
        exists key handler before after,
          items = before ++ (key, handler) :: after /\
          no_host key = true /\ Forall (other_path p) before
    end).
  { induction items as [|[key handler] items IH]; simpl; [constructor|].
    destruct (path_group_3 key) as [e|q] eqn:Hk.
    - destruct (path_group_3_Raise _ _ Hk) as [-> Hn]. split; [reflexivity|].
      exists key, handler, [], items. auto.
    - destruct (decide (p = q)) as [<-|Hne].
      + exists key, [], items. auto.
      + assert (Ho : other_path p (key, handler))
          by (exists q; split; [exact Hk|congruence]).
        destruct (identify_ws_method_loop p items) as [e|[h|]].
        * destruct IH as (-> & k & h & before & after & -> & Hn & Hb).
          split; [reflexivity|].
          exists k, h, ((key, handler) :: before), after. auto.
        * destruct IH as (k & before & after & -> & Hk' & Hb).
          exists k, ((key, handler) :: before), after. auto.
        * constructor; assumption. }
  specialize (Hloop table).
  destruct (identify_ws_method_loop p table) as [e|[h|]].
  - destruct Hloop as (-> & k & h & before & after & -> & Hn & Hb).
    split; [reflexivity|]. right. exists p, k, h, before, after. auto.
  - destruct Hloop as (k & before & after & -> & Hk & Hb).
    exists p, k, before, after. auto.
  - exists p. auto.
Qed.

End EndpointRouterMore.

(** * More properties of the supporting helpers *)
Module SupportMore.
Import Support SupportProofs.
Local Open Scope list_scope.

Section FindIndex.

Context {V : Type} `{EqDecision V}.
Implicit Types (source : list (gmap string V)) (target j : gmap string V).

(** A record that has the key, with another value than [v]. *)
Definition differs (key : string) (v : V) (j : gmap string V) : Prop :=
  exists v', j !! key = Some v' /\ v' <> v.

Lemma next_index_Return i source target key n :
  next_index i source target key = Return n ->
  exists before j after v,
    source = before ++ j :: after /\ n = (i + length before)%nat /\
    j !! key = Some v /\ target !! key = Some v /\
    Forall (differs key v) before.
Proof.
  revert i. induction source as [|j source IH]; intros i; simpl;
    [discriminate|].
  unfold getitem at 1 2.
  destruct (j !! key) as [a|] eqn:Hj; [|discriminate].
  destruct (target !! key) as [b|] eqn:Ht; [|discriminate].
  destruct (decide (a = b)) as [->|Hne].
  - intros [= <-]. exists [], j, source, b. simpl.
    repeat split; auto; lia.
  - intros Hn.
    destruct (IH _ Hn) as (before & j' & after & v & -> & -> & Hj' & Hv & Hb).
    assert (Hd : differs key v j) by (exists a; split; [exact Hj|congruence]).
    exists (j :: before), j', after, v. simpl.
    repeat split; auto; lia.
Qed.

Lemma next_index_KeyError i source target key :
  next_index i source target key = Raise (KeyError key) <->
  (source <> [] /\ target !! key = None) \/
  (exists v before j after,
     target !! key = Some v /\ source = before ++ j :: after /\
     j !! key = None /\ Forall (differs key v) before).
Proof.
  split.
  - revert i. induction source as [|j source IH]; intros i; simpl;
      [discriminate|].
    unfold getitem at 1 2.
    destruct (target !! key) as [b|] eqn:Ht.
    + destruct (j !! key) as [a|] eqn:Hj.
      * destruct (decide (a = b)) as [->|Hne]; [discriminate|].
        intros Hn. right.
        destruct (IH _ Hn) as [[_ Hnone]|(v & before & j' & after & Hv & -> & Hj' & Hb)];
          [discriminate|].
        injection Hv as <-.
        exists b, (j :: before), j', after. repeat split; auto.
        constructor; [|exact Hb]. exists a. auto.
      * intros _. right. exists b, [], j, source. auto.
    + intros _. left. split; [discriminate|reflexivity].
  - intros [[Hne Hnone]|(v & before & j & after & Hv & -> & Hj & Hb)].
    + destruct source as [|j source]; [contradiction|]. simpl.
      unfold getitem. rewrite Hnone. destruct (j !! key); reflexivity.
    + rewrite (next_index_skips i before _ _ _ v Hv Hb). simpl.
      unfold getitem. rewrite Hj. reflexivity.
Qed.

(** X8.  When [find_index] returns [i], the record at position [i] has
    the value of the target at the key, and every record before it has
    the key with another value: the position returned is in range and is
    the first match. *)
Theorem find_index_returns_first_match source target key (i : nat) :
  find_index source target key = Return i ->
  exists before j after v,
    source = before ++ j :: after /\ length before = i /\
    j !! key = Some v /\ target !! key = Some v /\
    Forall (differs key v) before.
Proof.
  intros Hf. unfold find_index in Hf.
  destruct (next_index_Return _ _ _ _ _ Hf)
    as (before & j & after & v & Hs & Hi & Hj & Ht & Hb).
  exists before, j, after, v. simpl in Hi. auto.
Qed.

(** X9.  [find_index] raises [KeyError] exactly when the list is not
    empty and the target has not the key, or when a record without the
    key comes before any record with the value of the target. *)
Theorem find_index_KeyError source target key :
  find_index source target key = Raise (KeyError key) <->
  (source <> [] /\ target !! key = None) \/
  (exists v before j after,
     target !! key = Some v /\ source = before ++ j :: after /\
     j !! key = None /\ Forall (differs key v) before).
Proof. unfold find_index. apply next_index_KeyError. Qed.

End FindIndex.

Lemma find_index_returns_first_match_witness :
  let source : list (gmap string Z) :=
    [{["id" := 5]}; {["id" := 7]}; {["id" := 7]}] in
  let target : gmap string Z := {["id" := 7]} in
  find_index source target "id" = Return 1%nat /\
  exists before j after v,
    source = before ++ j :: after /\ length before = 1%nat /\
    j !! "id" = Some v /\ target !! "id" = Some v /\
    Forall (differs "id" v) before.
Proof.
  intros source target.
  assert (Hf : find_index source target "id" = Return 1%nat) by reflexivity.
  split; [exact Hf|].
  exact (find_index_returns_first_match source target "id" 1%nat Hf).
Defined.

Section Connections.

Context {Connection : Type}.
Variable is_connected : Connection -> bool.

Lemma answer_forallb (connections : list Connection) :
  (are_connections_connected is_connected connections).1
  = forallb is_connected connections.
Proof.
  induction connections as [|c l IH]; simpl; [reflexivity|].
  destruct (is_connected c); simpl; [|reflexivity].
  destruct (are_connections_connected is_connected l). exact IH.
Qed.

(** X10.  The answer of [are_connections_connected] does not depend on
    the order of the connections, though which of them are asked does. *)
Theorem are_connections_connected_any_order
    (connections connections' : list Connection) :
  Permutation connections connections' ->
  (are_connections_connected is_connected connections).1
  = (are_connections_connected is_connected connections').1.
Proof.
  intros Hp. rewrite !answer_forallb.
  induction Hp as [|c l l' _ IH|c c' l|l l' l'' _ IH1 _ IH2]; simpl.
  - reflexivity.
  - rewrite IH. reflexivity.
  - rewrite !andb_assoc, (andb_comm (is_connected c')). reflexivity.
  - rewrite IH1. exact IH2.
Qed.

End Connections.

Lemma are_connections_connected_any_order_witness :
  let is_connected := fun c : nat * bool => c.2 in
  let l := [(1%nat, true); (2%nat, false); (3%nat, true)] in
  let l' := [(3%nat, true); (1%nat, true); (2%nat, false)] in
  Permutation l l' /\
  (are_connections_connected is_connected l).1
  = (are_connections_connected is_connected l').1 /\
  (are_connections_connected is_connected l).2
  <> (are_connections_connected is_connected l').2.
Proof.
  intros is_connected l l'.
  assert (Hp : Permutation l l').
  { unfold l, l'. etransitivity; [|apply Permutation_swap].
    apply Permutation_cons; [reflexivity|]. apply Permutation_swap. }
  split; [exact Hp|].
  split; [exact (are_connections_connected_any_order is_connected l l' Hp)|].
  discriminate.
Defined.

End SupportMore.

(** * Properties of the argument dictionaries *)
Module KwargsProofs.
Import Kwargs.

(** What [make_public_kwargs] leaves of a dictionary. *)
Local Abbreviation without_credentials m :=
  (delete "api_secret" (delete "api_key" (m : gmap string value))).

Lemma dict_pop_default_run (d : ref) (key : string) (default : value)
    (m : gmap string value) (h : heap) :
  exists v,
    dict_pop_default d key default (<[d := m]> h)
    = (Return v, <[d := delete key m]> h).
Proof.
  unfold dict_pop_default. rewrite lookup_total_insert_eq.
  destruct (m !! key) as [v|] eqn:Hk.
  - exists v. rewrite insert_insert_eq. reflexivity.
  - exists default. rewrite (delete_id _ _ Hk). reflexivity.
Qed.

Lemma make_public_kwargs_run (private_kwargs : ref) (h : heap) :
  make_public_kwargs private_kwargs h
  = (Return (fresh (dom h)),
     <[fresh (dom h) := without_credentials (h !!! private_kwargs)]> h).
Proof.
  unfold make_public_kwargs, deepcopy.
  destruct (dict_pop_default_run (fresh (dom h)) "api_key" (VStr "")
              (h !!! private_kwargs) h) as [v1 ->].
  destruct (dict_pop_default_run (fresh (dom h)) "api_secret" (VStr "")
              (delete "api_key" (h !!! private_kwargs)) h) as [v2 ->].
  reflexivity.
Qed.

Lemma fresh_not_allocated (h : heap) (r : ref) :
  is_Some (h !! r) -> fresh (dom h) <> r.
Proof.
  intros Hr <-. apply elem_of_dom in Hr. exact (is_fresh _ Hr).
Qed.

(** X11.  [make_private_args] works in place: when the dictionary has the
    key [self], the reference returned is the argument itself, the
    dictionary has lost [self] and kept every other key, and no other
    dictionary has changed.  It is not idempotent: a second call on the
    same dictionary raises [KeyError] and changes nothing. *)
Theorem make_private_args_in_place (args : ref) (v : value) (h : heap) :
  (h !!! args) !! "self" = Some v ->
  exists h',
    make_private_args args h = (Return args, h') /\
    (h' !!! args) !! "self" = None /\
    (forall key, key <> "self" ->
       (h' !!! args) !! key = (h !!! args) !! key) /\
    (forall r, r <> args -> h' !! r = h !! r) /\
    make_private_args args h' = (Raise (KeyError "self"), h').
Proof.
  intros Hs. unfold make_private_args at 1, dict_pop. rewrite Hs.
  eexists. split; [reflexivity|].
  rewrite lookup_total_insert_eq.
  split; [apply lookup_delete_eq|]. split; [|split].
  - intros key Hk. apply lookup_delete_ne. congruence.
  - intros r Hr. apply lookup_insert_ne. intros E. exact (Hr (eq_sym E)).
  - unfold make_private_args, dict_pop. rewrite lookup_total_insert_eq.
    rewrite lookup_delete_eq. reflexivity.
Qed.

(** X12.  [make_public_kwargs] never raises and never touches what it is
    given: it returns a dictionary that did not exist before, the private
    dictionary (credentials included) and every other dictionary are as
    they were, and the new one has neither [api_key] nor [api_secret] and
    agrees with the private one on every other key. *)
Theorem make_public_kwargs_copies (private_kwargs : ref) (h : heap) :
  is_Some (h !! private_kwargs) ->
  exists public_kwargs h',
    make_public_kwargs private_kwargs h = (Return public_kwargs, h') /\
    h !! public_kwargs = None /\ public_kwargs <> private_kwargs /\
    (forall r, r <> public_kwargs -> h' !! r = h !! r) /\
    h' !!! private_kwargs = h !!! private_kwargs /\
    (h' !!! public_kwargs) !! "api_key" = None /\
    (h' !!! public_kwargs) !! "api_secret" = None /\
    (forall key, key <> "api_key" -> key <> "api_secret" ->
       (h' !!! public_kwargs) !! key = (h !!! private_kwargs) !! key).
Proof.
  intros Hp. rewrite make_public_kwargs_run.
  pose proof (fresh_not_allocated h private_kwargs Hp) as Hne.
  eexists _, _. split; [reflexivity|].
  split; [apply not_elem_of_dom, is_fresh|]. split; [exact Hne|].
  split; [intros r Hr; apply lookup_insert_ne; intros E; exact (Hr (eq_sym E))|].
  split; [apply lookup_total_insert_ne; exact Hne|].
  rewrite lookup_total_insert_eq.
  split; [rewrite lookup_delete_ne by discriminate; apply lookup_delete_eq|].
  split; [apply lookup_delete_eq|].
  intros key Hk Hs. rewrite !lookup_delete_ne by congruence. reflexivity.
Qed.

(** X13.  Making a public copy of a public copy changes nothing more: the
    second call returns another dictionary, one that did not exist before
    it and is not the first copy, with the contents of the first copy;
    the first copy and every other dictionary are as they were. *)
Theorem make_public_kwargs_twice (private_kwargs : ref) (h : heap) :
  exists public1 h1 public2 h2,
    make_public_kwargs private_kwargs h = (Return public1, h1) /\
    make_public_kwargs public1 h1 = (Return public2, h2) /\
    h2 !!! public2 = h1 !!! public1 /\
    h2 !!! public1 = h1 !!! public1 /\
    h1 !! public2 = None /\ public2 <> public1 /\
    (forall r, r <> public2 -> h2 !! r = h1 !! r).
Proof.
  rewrite make_public_kwargs_run.
  set (public1 := fresh (dom h)).
  set (m1 := without_credentials (h !!! private_kwargs)).
  set (h1 := <[public1 := m1]> h).
  assert (H1 : h1 !!! public1 = m1) by apply lookup_total_insert_eq.
  eexists public1, h1, _, _. split; [reflexivity|].
  rewrite make_public_kwargs_run. split; [reflexivity|].
  assert (Hne : fresh (dom h1) <> public1).
  { apply fresh_not_allocated. unfold h1. rewrite lookup_insert_eq. eauto. }
  split; [|split; [|split; [|split]]].
  - rewrite lookup_total_insert_eq, H1. unfold m1.
    apply map_eq. intros key. rewrite !lookup_delete.
    repeat case_decide; reflexivity.
  - apply lookup_total_insert_ne. exact Hne.
  - apply not_elem_of_dom, is_fresh.
  - exact Hne.
  - intros r Hr. apply lookup_insert_ne. intros E. exact (Hr (eq_sym E)).
Qed.

Local Abbreviation example_heap :=
  ({[ 4%nat := {[ "self" := VInt 1; "api_key" := VStr "key";
                  "api_secret" := VStr "secret"; "testnet" := VBool true ]} ]}
   : heap).

Lemma make_private_args_in_place_witness :
  (example_heap !!! 4%nat) !! "self" = Some (VInt 1) /\
  exists h',
    make_private_args 4%nat example_heap = (Return 4%nat, h') /\
    (h' !!! 4%nat) !! "self" = None /\
    (forall key, key <> "self" ->
       (h' !!! 4%nat) !! key = (example_heap !!! 4%nat) !! key) /\
    (forall r, r <> 4%nat -> h' !! r = example_heap !! r) /\
    make_private_args 4%nat h' = (Raise (KeyError "self"), h').
Proof.
  assert (Hs : (example_heap !!! 4%nat) !! "self" = Some (VInt 1))
    by reflexivity.
  split; [exact Hs|].
  exact (make_private_args_in_place 4%nat (VInt 1) example_heap Hs).
Defined.

Lemma make_public_kwargs_copies_witness :
  is_Some (example_heap !! 4%nat) /\
  exists public_kwargs h',
    make_public_kwargs 4%nat example_heap = (Return public_kwargs, h') /\
    example_heap !! public_kwargs = None /\ public_kwargs <> 4%nat /\
    (forall r, r <> public_kwargs -> h' !! r = example_heap !! r) /\
    h' !!! 4%nat = example_heap !!! 4%nat /\
    (h' !!! public_kwargs) !! "api_key" = None /\
    (h' !!! public_kwargs) !! "api_secret" = None /\
    (forall key, key <> "api_key" -> key <> "api_secret" ->
       (h' !!! public_kwargs) !! key = (example_heap !!! 4%nat) !! key).
Proof.
  assert (Hp : is_Some (example_heap !! 4%nat)) by (eexists; reflexivity).
  split; [exact Hp|].
  exact (make_public_kwargs_copies 4%nat example_heap Hp).
Defined.

Example make_public_kwargs_example :
  exists h',
    make_public_kwargs 4%nat example_heap = (Return 5%nat, h') /\
    h' !!! 5%nat = {[ "self" := VInt 1; "testnet" := VBool true ]}.
Proof. eexists. split; vm_compute; reflexivity. Qed.

End KwargsProofs.

(** * Properties of the symbol classification *)
Module SymbolsProofs.
Import EndpointRouter Symbols.

(** ** Strings *)

(** Appending to a string that starts with known characters. *)
Ltac app_cons H :=
  repeat match type of H with
    | context [String ?c ?p +:+ ?r] =>
        change (String c p +:+ r) with (String c (p +:+ r)) in H
    | context [EmptyString +:+ ?r] =>
        change (EmptyString +:+ r) with r in H
    end.

Lemma app_assoc_string (s t u : string) : (s +:+ t) +:+ u = s +:+ t +:+ u.
Proof.
  induction s as [|c s IH]; [reflexivity|].
  change (String c ((s +:+ t) +:+ u) = String c (s +:+ t +:+ u)).
  rewrite IH. reflexivity.
Qed.

Lemma app_length_string (s t : string) :
  String.length (s +:+ t) = (String.length s + String.length t)%nat.
Proof.
  induction s as [|c s IH]; [reflexivity|].
  change (S (String.length (s +:+ t))
          = S (String.length s + String.length t)).
  rewrite IH. reflexivity.
Qed.

(** Two ways of cutting a string at the same distance from its end give
    the same end. *)
Lemma app_inj_end (s s' t t' : string) :
  String.length t = String.length t' ->
  s +:+ t = s' +:+ t' -> t = t'.
Proof.
  intros Hl. revert s'. induction s as [|c s IH]; intros s' He.
  - destruct s' as [|c' s']; [exact He|].
    apply (f_equal String.length) in He.
    change (String.length t = S (String.length (s' +:+ t'))) in He.
    rewrite app_length_string in He. lia.
  - destruct s' as [|c' s'].
    + apply (f_equal String.length) in He.
      change (S (String.length (s +:+ t)) = String.length t') in He.
      rewrite app_length_string in He. lia.
    + injection He as _ He. exact (IH _ He).
Qed.

Lemma strip_prefix_app_iff (l s rest : string) :
  strip_prefix l s = Some rest <-> s = l +:+ rest.
Proof.
  revert s. induction l as [|a l IH]; intros s.
  - simpl. split; [intros [= ->]|intros ->]; reflexivity.
  - destruct s as [|b s]; [split; discriminate|].
    cbn [strip_prefix].
    change (String a l +:+ rest) with (String a (l +:+ rest)).
    destruct (Ascii.eqb a b) eqn:E.
    + apply Ascii.eqb_eq in E. subst b. rewrite IH.
      split; [intros ->; reflexivity|intros [= ->]; reflexivity].
    + apply Ascii.eqb_neq in E. split; [discriminate|].
      intros [= Hb _]. congruence.
Qed.

Lemma endswith_iff (s suffix : string) :
  endswith s suffix = true <-> exists pre, s = pre +:+ suffix.
Proof.
  induction s as [|c s IH]; cbn [endswith].
  - rewrite orb_false_r, String.eqb_eq. split.
    + intros <-. exists "". reflexivity.
    + intros [pre Hp]. destruct pre; app_cons Hp; [exact Hp|discriminate Hp].
  - rewrite orb_true_iff, String.eqb_eq, IH. split.
    + intros [<-|[pre ->]]; [exists ""|exists (String c pre)]; reflexivity.
    + intros [[|c' pre] Hp]; app_cons Hp; [left; exact Hp|right].
      app_cons Hp. injection Hp as _ ->. exists pre. reflexivity.
Qed.

(** ** The matcher *)

Lemma search_iff (p : pattern) (s : string) :
  search p s = true <->
  exists pre rest, s = pre +:+ rest /\ accepts p rest (fun _ => true) = true.
Proof.
  induction s as [|c s IH]; cbn [search].
  - rewrite orb_false_r. split.
    + intros Ha. exists "", "". auto.
    + intros (pre & rest & He & Ha).
      destruct pre; app_cons He; [|discriminate He]. app_cons He. subst rest. exact Ha.
  - rewrite orb_true_iff, IH. split.
    + intros [Ha|(pre & rest & -> & Ha)].
      * exists "", (String c s). auto.
      * exists (String c pre), rest. auto.
    + intros ([|c' pre] & rest & He & Ha).
      * left. app_cons He. subst rest. exact Ha.
      * right. app_cons He. injection He as _ ->. exists pre, rest. auto.
Qed.

Lemma accepts_many_iff (cls : ascii -> bool) (s : string)
    (k : string -> bool) :
  accepts_many cls s k = true <->
  exists run rest,
    s = run +:+ rest /\ all_chars cls run = true /\ k rest = true.
Proof.
  induction s as [|c s IH]; cbn [accepts_many].
  - split.
    + intros Hk. exists "", "". auto.
    + intros (run & rest & He & _ & Hk).
      destruct run; app_cons He; [|discriminate He]. app_cons He. subst rest. exact Hk.
  - destruct (cls c) eqn:Hc.
    + rewrite orb_true_iff, IH. split.
      * intros [(run & rest & -> & Hr & Hk)|Hk].
        -- exists (String c run), rest. simpl. rewrite Hc. auto.
        -- exists "", (String c s). auto.
      * intros ([|c' run] & rest & He & Hr & Hk).
        -- right. app_cons He. subst rest. exact Hk.
        -- left. app_cons He. injection He as <- ->. simpl in Hr.
           apply andb_true_iff in Hr as [_ Hr]. exists run, rest. auto.
    + split.
      * intros Hk. exists "", (String c s). auto.
      * intros ([|c' run] & rest & He & Hr & Hk).
        -- app_cons He. subst rest. exact Hk.
        -- app_cons He. injection He as <- _. simpl in Hr. rewrite Hc in Hr.
           discriminate Hr.
Qed.

Lemma at_end_iff (s : string) :
  at_end s = true <-> s = "" \/ s = String "010" "".
Proof.
  destruct s as [|c [|c' s]]; simpl.
  - split; auto.
  - rewrite Ascii.eqb_eq. split; [intros ->; auto|].
    intros [H|H]; [discriminate H|]. injection H as ->. reflexivity.
  - split; [discriminate|]. intros [H|H]; discriminate H.
Qed.

Lemma inverse_pattern_here (s : string) :
  accepts inverse_pattern s (fun _ => true) = true <->
  exists post, s = "USD" +:+ post /\ delivery_or_end post.
Proof.
  unfold inverse_pattern. cbn [accepts].
  destruct (strip_prefix "USD" s) as [post|] eqn:Hs.
  - apply strip_prefix_app_iff in Hs. subst s.
    rewrite andb_true_r, orb_true_iff. split.
    + intros Hp. exists post. split; [reflexivity|].
      destruct Hp as [Hp|Hp]; [right|left; exact Hp].
      destruct post as [|m [|d1 [|d2 rest]]]; try discriminate Hp;
        try (rewrite !andb_false_r in Hp; discriminate Hp).
      apply andb_true_iff in Hp as [Hm Hp].
      apply andb_true_iff in Hp as [H1 H2].
      rewrite andb_true_r in H2.
      exists m, d1, d2, rest. auto.
    + intros (post' & He & Hd). app_cons He. injection He as <-.
      destruct Hd as [Hd|(m & d1 & d2 & rest & -> & Hm & H1 & H2)];
        [right; exact Hd|left].
      rewrite Hm, H1, H2. reflexivity.
  - split; [discriminate|]. intros (post & He & _).
    apply strip_prefix_app_iff in He. congruence.
Qed.

Lemma option_pattern_here (s : string) :
  accepts option_pattern s (fun _ => true) = true <-> option_shape s.
Proof.
  unfold option_pattern, option_shape. cbn [accepts].
  destruct s as [|a [|b [|c s]]];
    [split; [rewrite ?andb_false_r; discriminate
            |intros (?&?&?&?&?&?&He&_); discriminate He]..|].
  rewrite !andb_true_iff. split.
  - intros (Ha & Hb & Hc & Hrest).
    destruct (strip_prefix "-" s) as [s1|] eqn:Hs; [|discriminate].
    apply strip_prefix_app_iff in Hs. subst s.
    apply accepts_many_iff in Hrest as (mid & s2 & -> & Hmid & Hk).
    destruct (strip_prefix "-" s2) as [s3|] eqn:Hs2; [|discriminate].
    apply strip_prefix_app_iff in Hs2. subst s2.
    destruct s3 as [|pc tail]; [discriminate|].
    apply andb_true_iff in Hk as [Hpc Hend]. rewrite andb_true_r in Hend.
    exists a, b, c, mid, pc, tail.
    split; [reflexivity|]. repeat split; assumption.
  - intros (a0 & b0 & c0 & mid & pc & tail & He & Ha & Hb & Hc & Hmid & Hpc & Hend).
    injection He as <- <- <- ->.
    repeat (split; [assumption|]).
    rewrite (proj2 (strip_prefix_app_iff "-" _ _) eq_refl).
    apply accepts_many_iff. exists mid, ("-" +:+ String pc tail).
    split; [reflexivity|]. split; [assumption|].
    rewrite (proj2 (strip_prefix_app_iff "-" _ _) eq_refl).
    rewrite Hpc, Hend. reflexivity.
Qed.

(** X14.  [is_inverse_contract] returns [True] exactly for the symbols in
    which some [USD] is followed by the end of the symbol (or by one line
    feed that ends it) or by a delivery code, one of [HMUZ] and two
    digits; for every other symbol it returns [None], never [False]. *)
Theorem is_inverse_contract_iff (symbol : string) :
  (is_inverse_contract symbol = Some true <->
   exists pre post,
     symbol = pre +:+ "USD" +:+ post /\ delivery_or_end post) /\
  (is_inverse_contract symbol = Some true \/
   is_inverse_contract symbol = None).
Proof.
  unfold is_inverse_contract.
  pose proof (search_iff inverse_pattern symbol) as Hs.
  destruct (search inverse_pattern symbol).
  - split; [|auto]. split; [intros _|reflexivity].
    destruct (proj1 Hs eq_refl) as (pre & rest & -> & Ha).
    apply inverse_pattern_here in Ha as (post & -> & Hd).
    exists pre, post. auto.
  - split; [|auto]. split; [discriminate|].
    intros (pre & post & -> & Hd).
    assert (Ht : false = true); [|discriminate Ht].
    apply Hs. exists pre, ("USD" +:+ post). split; [reflexivity|].
    apply inverse_pattern_here. exists post. auto.
Qed.

Lemma is_usdc_option_Some (symbol : string) :
  is_usdc_option symbol = Some true <->
  exists pre rest, symbol = pre +:+ rest /\ option_shape rest.
Proof.
  unfold is_usdc_option.
  pose proof (search_iff option_pattern symbol) as Hs.
  destruct (search option_pattern symbol).
  - split; [intros _|reflexivity].
    destruct (proj1 Hs eq_refl) as (pre & rest & -> & Ha).
    exists pre, rest. split; [reflexivity|]. apply option_pattern_here, Ha.
  - split; [discriminate|]. intros (pre & rest & -> & Ho).
    assert (Ht : false = true); [|discriminate Ht].
    apply Hs. exists pre, rest. split; [reflexivity|].
    apply option_pattern_here, Ho.
Qed.

Lemma perpetual_Some (symbol suffix : string) :
  (if endswith symbol suffix then Some true else None) = Some true <->
  exists pre, symbol = pre +:+ suffix.
Proof.
  rewrite <- endswith_iff. destruct (endswith symbol suffix).
  - split; reflexivity.
  - split; discriminate.
Qed.

(** An option symbol ends with a dash and [P] or [C], before the end. *)
Lemma is_usdc_option_end (symbol : string) :
  is_usdc_option symbol = Some true ->
  exists front pc tail,
    symbol = front +:+ String "-" (String pc tail) /\
    p_or_c pc = true /\ at_end tail = true.
Proof.
  intros Ho. apply is_usdc_option_Some in Ho
    as (pre & rest & -> & a & b & c & mid & pc & tail & -> & _ & _ & _ & _ & Hpc & He).
  exists (pre +:+ String a (String b (String c ("-" +:+ mid)))), pc, tail.
  split; [|auto]. rewrite app_assoc_string.
  change (String a (String b (String c ("-" +:+ mid)))
          +:+ String "-" (String pc tail))
    with (String a (String b (String c
            (("-" +:+ mid) +:+ String "-" (String pc tail))))).
  rewrite app_assoc_string. reflexivity.
Qed.

(** A symbol with a four-character ending whose last two characters are
    not a dash with [P] or [C] is no option symbol. *)
Lemma not_option_ending (pre : string) (c1 c2 c3 c4 : ascii) :
  c3 <> "-"%char -> c4 <> "010"%char ->
  is_usdc_option (pre +:+ String c1 (String c2 (String c3 (String c4 ""))))
  = None.
Proof.
  intros H3 H4.
  destruct (is_usdc_option _) as [[|]|] eqn:Ho; [|exfalso|reflexivity].
  - exfalso.
    destruct (is_usdc_option_end _ Ho) as (front & pc & tail & He & _ & Ht).
    apply at_end_iff in Ht as [->| ->].
    + assert (Hs : String c3 (String c4 "") = String "-" (String pc "")).
      { apply (app_inj_end (pre +:+ String c1 (String c2 "")) front);
          [reflexivity|].
        rewrite app_assoc_string. exact He. }
      injection Hs as Hs _. contradiction.
    + assert (Hs : String c4 "" = String "010" "").
      { apply (app_inj_end (pre +:+ String c1 (String c2 (String c3 "")))
                 (front +:+ String "-" (String pc "")));
          [reflexivity|].
        rewrite !app_assoc_string. exact He. }
      injection Hs as Hs. contradiction.
  - unfold is_usdc_option in Ho.
    destruct (search option_pattern _); discriminate Ho.
Qed.

(** X15.  [is_usdc_option] returns [True] exactly for the symbols that
    hold, somewhere, three capital letters, a dash, any characters but a
    line feed, a dash and [P] or [C] at the end of the symbol (or before
    one line feed that ends it); for every other symbol it returns
    [None], never [False]. *)
Theorem is_usdc_option_iff (symbol : string) :
  (is_usdc_option symbol = Some true <->
   exists pre rest, symbol = pre +:+ rest /\ option_shape rest) /\
  (is_usdc_option symbol = Some true \/ is_usdc_option symbol = None).
Proof.
  split; [apply is_usdc_option_Some|].
  unfold is_usdc_option. destruct (search option_pattern symbol); auto.
Qed.

(** X16.  [is_usdt_perpetual] returns [True] exactly for the symbols that
    end with [USDT] and [is_usdc_perpetual] exactly for those that end
    with [USDC]; for the others they return [None], never [False]. *)
Theorem perpetual_iff (symbol : string) :
  (is_usdt_perpetual symbol = Some true <->
   exists pre, symbol = pre +:+ "USDT") /\
  (is_usdc_perpetual symbol = Some true <->
   exists pre, symbol = pre +:+ "USDC") /\
  (is_usdt_perpetual symbol = Some true \/ is_usdt_perpetual symbol = None) /\
  (is_usdc_perpetual symbol = Some true \/ is_usdc_perpetual symbol = None).
Proof.
  split; [apply perpetual_Some|]. split; [apply perpetual_Some|].
  unfold is_usdt_perpetual, is_usdc_perpetual.
  destruct (endswith symbol "USDT"), (endswith symbol "USDC"); auto.
Qed.

(** X17.  The three predicates for USDT perpetuals, USDC perpetuals and
    USDC options exclude one another: no symbol gets [True] from two of
    them. *)
Theorem perpetual_option_exclusive (symbol : string) :
  (is_usdt_perpetual symbol = Some true ->
   is_usdc_perpetual symbol = None /\ is_usdc_option symbol = None) /\
  (is_usdc_perpetual symbol = Some true -> is_usdc_option symbol = None).
Proof.
  split.
  - intros Ht. apply perpetual_Some in Ht as [pre ->]. split.
    + destruct (is_usdc_perpetual _) as [[|]|] eqn:Hc; [|exfalso|reflexivity].
      * exfalso. apply perpetual_Some in Hc as [pre' Hc].
        apply app_inj_end in Hc; [discriminate Hc|reflexivity].
      * unfold is_usdc_perpetual in Hc.
        destruct (endswith _ _); discriminate Hc.
    + apply not_option_ending; discriminate.
  - intros Hc. apply perpetual_Some in Hc as [pre ->].
    apply not_option_ending; discriminate.
Qed.

End SymbolsProofs.
